(** * LRU cache (src/lru-cache.js): a shallow embedding and its properties

    The JavaScript source keeps a cache as an object with four fields
    ([_size], [_cacheLimit], [_first], [_last]) plus a plain object [_store]
    used as a map from keys to [CacheEntry] objects.  The entries are linked
    to each other through their [prev] and [next] fields, so that several
    references to the same entry exist at once (the store, the neighbours,
    [_first], [_last]).  The embedding therefore keeps an explicit object
    heap: an entry is a location, and every field read or write goes
    through the heap.

    Scope of the model.  Keys are property names (strings) and [_store] is
    a finite map holding the own properties of the object.  The source
    reads [this._store[key]] on an object created as [{}], which also finds
    what the object inherits from [Object.prototype]; the finite map agrees
    with that read on every key it holds and on every key that is not the
    name of a property of [Object.prototype] ([plain_key] below).  The
    properties are stated for such keys.  Numbers are integers; where their
    text matters they are bounded to the range in which JavaScript prints
    every digit ([plain_number] below). *)

From Stdlib Require Import ZArith Lia DecimalString.
From stdpp Require Import gmap strings list fin_maps.

(** ** JavaScript values and heap objects *)

(** Heap locations. *)
Abbreviation loc := nat (only parsing).

(** The values a caller can store or get back.  [JRef l] is a reference to
    the heap object at [l]; the cache returns such references from [put],
    [purge] and [find]. *)
Inductive jsval : Type :=
| JUndefined
| JNull
| JBool (b : bool)
| JNum (n : Z)
| JStr (s : string)
| JRef (l : loc).

(** [function CacheEntry(key, value, prev, next)].  [prev] and [next] hold
    either [undefined] or an entry. *)
Record CacheEntry : Type := mkCacheEntry {
  key : string;
  value : jsval;
  prev : option loc;
  next : option loc
}.

(** Reading a field of the object at [l].  A missing property reads as
    [undefined], as in JavaScript. *)
Definition get_key (h : list CacheEntry) (l : loc) : string :=
  from_option key "undefined"%string (h !! l).
Definition get_value (h : list CacheEntry) (l : loc) : jsval :=
  from_option value JUndefined (h !! l).
Definition get_prev (h : list CacheEntry) (l : loc) : option loc :=
  h !! l ≫= prev.
Definition get_next (h : list CacheEntry) (l : loc) : option loc :=
  h !! l ≫= next.

(** Assigning a field of the object at [l]. *)
Definition set_value (l : loc) (v : jsval) (h : list CacheEntry) : list CacheEntry :=
  alter (λ e, mkCacheEntry (key e) v (prev e) (next e)) l h.
Definition set_prev (l : loc) (o : option loc) (h : list CacheEntry) : list CacheEntry :=
  alter (λ e, mkCacheEntry (key e) (value e) o (next e)) l h.
Definition set_next (l : loc) (o : option loc) (h : list CacheEntry) : list CacheEntry :=
  alter (λ e, mkCacheEntry (key e) (value e) (prev e) o) l h.

(** ** The cache object *)

Record LRUCache : Type := mkLRUCache {
  heap : list CacheEntry;
  _size : Z;
  _cacheLimit : Z;
  _first : option loc;
  _last : option loc;
  _store : gmap string loc
}.

Definition upd_heap (f : list CacheEntry → list CacheEntry) (s : LRUCache) : LRUCache :=
  mkLRUCache (f (heap s)) (_size s) (_cacheLimit s) (_first s) (_last s) (_store s).
Definition with_size (n : Z) (s : LRUCache) : LRUCache :=
  mkLRUCache (heap s) n (_cacheLimit s) (_first s) (_last s) (_store s).
Definition with_first (o : option loc) (s : LRUCache) : LRUCache :=
  mkLRUCache (heap s) (_size s) (_cacheLimit s) o (_last s) (_store s).
Definition with_last (o : option loc) (s : LRUCache) : LRUCache :=
  mkLRUCache (heap s) (_size s) (_cacheLimit s) (_first s) o (_store s).
Definition upd_store (f : gmap string loc → gmap string loc) (s : LRUCache) : LRUCache :=
  mkLRUCache (heap s) (_size s) (_cacheLimit s) (_first s) (_last s) (f (_store s)).

(** [newInstance(_cacheLimit)], i.e. [new LRUCache(cacheLimit)]. *)
Definition newInstance (cacheLimit : Z) : LRUCache :=
  mkLRUCache [] 0 cacheLimit None None ∅.

(** ** Operations *)

(** [LRUCache.prototype._moveToFront] *)
Definition _moveToFront (entry : loc) (s : LRUCache) : LRUCache :=
  if decide (Some entry = _first s) then s else
  let s1 :=
    match get_next (heap s) entry with
    | Some n =>
        let s' := if decide (Some entry = _last s) then with_last (Some n) s else s in
        upd_heap (set_prev n (get_prev (heap s') entry)) s'
    | None => s
    end in
  let s2 :=
    match get_prev (heap s1) entry with
    | Some p => upd_heap (set_next p (get_next (heap s1) entry)) s1
    | None => s1
    end in
  let s3 := upd_heap (set_next entry None) s2 in
  let s4 := upd_heap (set_prev entry (_first s3)) s3 in
  let s5 :=
    match _first s4 with
    | Some f => upd_heap (set_next f (Some entry)) s4
    | None => s4
    end in
  with_first (Some entry) s5.

(** [LRUCache.prototype._getEntry] *)
Definition _getEntry (k : string) (s : LRUCache) : option loc * LRUCache :=
  match _store s !! k with
  | Some entry => (Some entry, _moveToFront entry s)
  | None => (None, s)
  end.

(** [LRUCache.prototype.purge]: the result is the removed entry object or
    [undefined]. *)
Definition purge (s : LRUCache) : jsval * LRUCache :=
  match _last s with
  | Some entry =>
      let s1 :=
        match get_next (heap s) entry with
        | Some n => upd_heap (set_prev n None) (with_last (Some n) s)
        | None => with_first None (with_last None s)
        end in
      let s2 := upd_heap (set_next entry None) (upd_heap (set_prev entry None) s1) in
      let s3 := upd_store (delete (get_key (heap s2) entry)) s2 in
      (JRef entry, with_size (_size s3 - 1) s3)
  | None => (JUndefined, s)
  end.

(** [LRUCache.prototype.put] *)
Definition put (k : string) (v : jsval) (s : LRUCache) : jsval * LRUCache :=
  match _store s !! k with
  | Some entry =>
      (JUndefined, _moveToFront entry (upd_heap (set_value entry v) s))
  | None =>
      let entry := length (heap s) in
      let s1 := upd_heap (λ h, h ++ [mkCacheEntry k v None None]) s in
      let s2 := upd_store (insert k entry) s1 in
      let s3 :=
        match _first s2 with
        | Some f => upd_heap (set_prev entry (Some f)) (upd_heap (set_next f (Some entry)) s2)
        | None => with_last (Some entry) s2
        end in
      let s4 := with_first (Some entry) s3 in
      let s5 := with_size (_size s4 + 1) s4 in
      if (_cacheLimit s5 <? _size s5)%Z then purge s5 else (JUndefined, s5)
  end.

(** [LRUCache.prototype.get] *)
Definition get (k : string) (s : LRUCache) : jsval * LRUCache :=
  let '(entry, s1) := _getEntry k s in
  (match entry with
   | Some e => get_value (heap s1) e
   | None => JUndefined
   end, s1).

(** [LRUCache.prototype.find]: returns what [_store] holds for the key. *)
Definition find (k : string) (s : LRUCache) : jsval * LRUCache :=
  (match _store s !! k with
   | Some entry => JRef entry
   | None => JUndefined
   end, s).

(** [LRUCache.prototype.set] *)
Definition set (k : string) (v : jsval) (s : LRUCache) : jsval * LRUCache :=
  let '(entry, s1) := _getEntry k s in
  match entry with
  | Some e => (get_value (heap s1) e, upd_heap (set_value e v) s1)
  | None => (JUndefined, s1)
  end.

(** [LRUCache.prototype.remove] *)
Definition remove (k : string) (s : LRUCache) : jsval * LRUCache :=
  match _store s !! k with
  | None => (JUndefined, s)
  | Some entry =>
      let s1 := upd_store (delete (get_key (heap s) entry)) s in
      let s2 :=
        match get_next (heap s1) entry, get_prev (heap s1) entry with
        | Some n, Some p =>
            let s' := upd_heap (set_next p (get_next (heap s1) entry)) s1 in
            match get_next (heap s') entry with
            | Some n' => upd_heap (set_prev n' (get_prev (heap s') entry)) s'
            | None => s'
            end
        | Some n, None => with_last (Some n) (upd_heap (set_prev n None) s1)
        | None, Some p => with_first (Some p) (upd_heap (set_next p None) s1)
        | None, None => with_last None (with_first None s1)
        end in
      let s3 := with_size (_size s2 - 1) s2 in
      (get_value (heap s3) entry, s3)
  end.

(** [LRUCache.prototype.removeAll] *)
Definition removeAll (s : LRUCache) : jsval * LRUCache :=
  (JUndefined, mkLRUCache (heap s) 0 (_cacheLimit s) None None ∅).

(** A JavaScript array: a slot is either a hole or an element.  Writing at
    an index past the end extends the array, leaving holes in between. *)
Definition array_store {A} (arr : list (option A)) (i : nat) (x : A) : list (option A) :=
  if decide (i < length arr)%nat
  then <[i := Some x]> arr
  else arr ++ replicate (i - length arr) None ++ [Some x].

(** The object literal [{key: entry.key, value: entry.value}]. *)
Record JSONEntry : Type := mkJSONEntry {
  json_key : string;
  json_value : jsval
}.

(** The [while (entry)] loop of [toJSON].  The loop has no bound of its own
    in the source; [fuel] bounds the number of iterations and [None] means
    that the bound was hit. *)
Fixpoint toJSON_loop (fuel : nat) (h : list CacheEntry) (entry : option loc)
    (i : nat) (_storeJSON : list (option JSONEntry)) : option (list (option JSONEntry)) :=
  match entry with
  | None => Some _storeJSON
  | Some e =>
      match fuel with
      | O => None
      | S fuel' =>
          toJSON_loop fuel' h (get_next h e) (S i)
            (array_store _storeJSON i (mkJSONEntry (get_key h e) (get_value h e)))
      end
  end.

(** [LRUCache.prototype.toJSON] *)
Definition toJSON (fuel : nat) (s : LRUCache) : option (list (option JSONEntry)) * LRUCache :=
  (toJSON_loop fuel (heap s) (_last s) 0 (replicate (Z.to_nat (_size s)) None), s).

(** [String(v)] on the values of the model; a number is an integer and
    prints in plain decimal digits. *)
Definition js_String (v : jsval) : string :=
  match v with
  | JUndefined => "undefined"
  | JNull => "null"
  | JBool true => "true"
  | JBool false => "false"
  | JNum n => NilZero.string_of_int (Z.to_int n)
  | JStr s => s
  | JRef _ => "[object Object]"
  end.

(** The loop of [toString]. *)
Fixpoint toString_loop (fuel : nat) (h : list CacheEntry) (entry : option loc)
    (_storeStr : string) : option string :=
  match entry with
  | None => Some _storeStr
  | Some e =>
      match fuel with
      | O => None
      | S fuel' =>
          let str1 := (_storeStr +:+ get_key h e +:+ ":" +:+ js_String (get_value h e))%string in
          let entry' := get_next h e in
          let str2 := match entry' with Some _ => (str1 +:+ " < ")%string | None => str1 end in
          toString_loop fuel' h entry' str2
      end
  end.

(** [LRUCache.prototype.toString] *)
Definition toString (fuel : nat) (s : LRUCache) : option string * LRUCache :=
  (toString_loop fuel (heap s) (_last s) "", s).

(** [LRUCache.prototype.keys]: the own property names of [_store]; the
    source promises no order. *)
Definition keys (s : LRUCache) : list string * LRUCache :=
  (elements (dom (_store s)), s).

(** ** Reading the recency list off the heap *)

(** Follow [next] links from [o], at most [fuel] nodes. *)
Fixpoint walk_next (fuel : nat) (h : list CacheEntry) (o : option loc) : list loc :=
  match fuel, o with
  | S fuel', Some l => l :: walk_next fuel' h (get_next h l)
  | _, _ => []
  end.

(** Follow [prev] links from [o], at most [fuel] nodes. *)
Fixpoint walk_prev (fuel : nat) (h : list CacheEntry) (o : option loc) : list loc :=
  match fuel, o with
  | S fuel', Some l => l :: walk_prev fuel' h (get_prev h l)
  | _, _ => []
  end.

(** The nodes of the list, least recently used first: [_size] steps along
    [next] from [_last]. *)
Definition nodes (s : LRUCache) : list loc :=
  walk_next (Z.to_nat (_size s)) (heap s) (_last s).

(** The (key, value) pairs, least recently used first. *)
Definition entries (s : LRUCache) : list (string * jsval) :=
  (λ l, (get_key (heap s) l, get_value (heap s) l)) <$> nodes s.

(** The keys from head (most recently used) to tail. *)
Definition recency (s : LRUCache) : list string :=
  reverse (get_key (heap s) <$> nodes s).

(** ** Sequences of public operations *)

(** A call of one of the public methods, with its arguments. *)
Inductive op : Type :=
| Put (k : string) (v : jsval)
| Purge
| Get (k : string)
| Find (k : string)
| Set_ (k : string) (v : jsval)
| Remove (k : string)
| RemoveAll
| ToJSON
| ToString
| Keys.

(** The cache after one call.  The two loops get as many iterations as
    [_size] tells; they do not write to the cache. *)
Definition exec (o : op) (s : LRUCache) : LRUCache :=
  match o with
  | Put k v => (put k v s).2
  | Purge => (purge s).2
  | Get k => (get k s).2
  | Find k => (find k s).2
  | Set_ k v => (set k v s).2
  | Remove k => (remove k s).2
  | RemoveAll => (removeAll s).2
  | ToJSON => (toJSON (Z.to_nat (_size s)) s).2
  | ToString => (toString (Z.to_nat (_size s)) s).2
  | Keys => (keys s).2
  end.

(** The cache after a sequence of calls, first call first. *)
Definition run (ops : list op) (s : LRUCache) : LRUCache :=
  foldl (λ s o, exec o s) s ops.

(** ** Doubly linked segments *)

Definition hd_or (ls : list loc) (n : option loc) : option loc :=
  match ls with
  | [] => n
  | l :: _ => Some l
  end.

Definition last_or (ls : list loc) (p : option loc) : option loc :=
  match last ls with
  | Some l => Some l
  | None => p
  end.

(** [dseg h p ls n]: the objects [ls] are allocated and chained in this
    order through [next], and in the opposite order through [prev]; the
    [prev] of the first one is [p] and the [next] of the last one is [n]. *)
Fixpoint dseg (h : list CacheEntry) (p : option loc) (ls : list loc)
    (n : option loc) : Prop :=
  match ls with
  | [] => True
  | l :: ls' =>
      (l < length h)%nat ∧ get_prev h l = p ∧ get_next h l = hd_or ls' n ∧
      dseg h (Some l) ls' n
  end.

(** ** The representation invariant

    [Rep s ls]: the recency list of [s] is the chain of objects [ls], least
    recently used first, and [_store] maps exactly the keys of these
    objects, each to its object. *)
Record Rep (s : LRUCache) (ls : list loc) : Prop := mkRep {
  rep_nodup : NoDup ls;
  rep_size : _size s = Z.of_nat (length ls);
  rep_last : _last s = head ls;
  rep_first : _first s = last ls;
  rep_links : dseg (heap s) None ls None;
  rep_store : ∀ k l, _store s !! k = Some l ↔ l ∈ ls ∧ get_key (heap s) l = k
}.

(** ** The structural invariant, as the walks over the heap show it *)

Record structural (s : LRUCache) : Prop := mkStructural {
  (* the size is a count *)
  st_size : (0 ≤ _size s)%Z;
  (* the walk from [_last] along [next] does not stop early, *)
  st_length : length (nodes s) = Z.to_nat (_size s);
  (* it ends after [_size] nodes: one more step finds nothing, *)
  st_next_end :
    walk_next (S (Z.to_nat (_size s))) (heap s) (_last s) = nodes s;
  (* it visits no node twice, *)
  st_acyclic : NoDup (nodes s);
  (* and its final node is [_first]; *)
  st_first : _first s = last (nodes s);
  (* the walk from [_first] along [prev] visits the same nodes in the
     opposite order and ends after [_size] of them; *)
  st_prev :
    walk_prev (S (Z.to_nat (_size s))) (heap s) (_first s) = reverse (nodes s);
  (* the nodes are objects of the heap; *)
  st_alloc : ∀ l, l ∈ nodes s → (l < length (heap s))%nat;
  (* [prev] and [next] mirror each other; *)
  st_sym : ∀ l m, l ∈ nodes s →
    (get_next (heap s) l = Some m → get_prev (heap s) m = Some l) ∧
    (get_prev (heap s) l = Some m → get_next (heap s) m = Some l);
  (* [_store] holds exactly the keys of the nodes, each mapped to its node; *)
  st_index : ∀ k l,
    _store s !! k = Some l ↔ l ∈ nodes s ∧ get_key (heap s) l = k;
  (* the cache is empty exactly when both ends are absent. *)
  st_empty : _size s = 0%Z ↔ _first s = None ∧ _last s = None
}.

(** Chains along one field. *)
Fixpoint nchain (h : list CacheEntry) (ls : list nat) (n : option nat) : Prop :=
  match ls with
  | [] => True
  | l :: ls' => get_next h l = hd_or ls' n ∧ nchain h ls' n
  end.

Fixpoint pchain (h : list CacheEntry) (p : option nat) (ls : list nat) : Prop :=
  match ls with
  | [] => True
  | l :: ls' => get_prev h l = p ∧ pchain h (Some l) ls'
  end.

(** ** Auxiliary definitions for the proofs *)

(** The state of [put] on a new key after [this._size++], before the
    capacity check. *)
Definition link_new (k : string) (v : jsval) (s : LRUCache) : LRUCache :=
  let entry := length (heap s) in
  let h1 := heap s ++ [mkCacheEntry k v None None] in
  mkLRUCache
    match _first s with
    | Some f => set_prev entry (Some f) (set_next f (Some entry) h1)
    | None => h1
    end
    (_size s + 1) (_cacheLimit s) (Some entry)
    match _first s with
    | Some _ => _last s
    | None => Some entry
    end
    (<[k := entry]> (_store s)).

(** The (key, value) pair read off the object at [l]. *)
Definition entry_of (h : list CacheEntry) (l : nat) : string * jsval :=
  (get_key h l, get_value h l).

(** The size stays within the limit the cache was built with. *)
Definition bounded (s : LRUCache) : Prop :=
  (0 < _cacheLimit s)%Z ∧ (0 ≤ _size s ≤ _cacheLimit s)%Z.

(** The array slot that [toJSON] writes for an entry. *)
Definition json_of (e : string * jsval) : option JSONEntry :=
  Some (mkJSONEntry e.1 e.2).

(** ** Rebuilding a cache from a snapshot *)

(** The source has no import operation.  This is the replay that the
    round-trip property of the specification describes: [put] is called
    for each record of an exported array, in array order (a hole is
    skipped), starting from a fresh cache. *)
Definition rebuild_from (s : LRUCache) (snapshot : list (option JSONEntry)) : LRUCache :=
  foldl (λ s slot,
           match slot with
           | Some e => (put (json_key e) (json_value e) s).2
           | None => s
           end) s snapshot.

Definition rebuild (cacheLimit : Z) (snapshot : list (option JSONEntry)) : LRUCache :=
  rebuild_from (newInstance cacheLimit) snapshot.

(** ** Example caches *)

(** An example: three insertions into a cache of limit 3. *)
Definition example_ops : list op :=
  [Put "a" (JNum 1); Put "b" (JNum 2); Put "c" (JNum 3)].
Definition example_cache : LRUCache := run example_ops (newInstance 3).

(** The cache holding the single entry ("a", 1). *)
Definition single_cache : LRUCache := (put "a" (JNum 1) (newInstance 2)).2.

(** ** Keys and values within the scope of the model *)

(** The own property names of [Object.prototype] in a standard environment.
    For these names a lookup on an object created as [{}] finds an inherited
    function or object even when the name was never stored. *)
Definition inherited_names : list string :=
  ["constructor"; "__defineGetter__"; "__defineSetter__"; "hasOwnProperty";
   "__lookupGetter__"; "__lookupSetter__"; "isPrototypeOf";
   "propertyIsEnumerable"; "toString"; "valueOf"; "__proto__";
   "toLocaleString"]%string.

Definition inherited (k : string) : bool :=
  existsb (String.eqb k) inherited_names.

(** A key on which the lookup in the finite map is the lookup of the
    source. *)
Definition plain_key (k : string) : Prop := inherited k = false.

(** The key a call looks up, if any. *)
Definition op_key (o : op) : option string :=
  match o with
  | Put k _ | Get k | Find k | Set_ k _ | Remove k => Some k
  | Purge | RemoveAll | ToJSON | ToString | Keys => None
  end.

Definition plain_op (o : op) : Prop :=
  match op_key o with
  | Some k => plain_key k
  | None => True
  end.



(** ** A list model of the cache

    The cache seen as its list of (key, value) pairs, least recently used
    first, together with the limit.  The operations below are written
    independently of the heap, to compare the source against. *)

(** The value listed under a key. *)
Fixpoint assoc (k : string) (es : list (string * jsval)) : option jsval :=
  match es with
  | [] => None
  | e :: es' => if decide (e.1 = k) then Some e.2 else assoc k es'
  end.

(** Move the pair of key [k] to the most-recently-used end, with value [v]. *)
Definition model_touch (k : string) (v : jsval) (es : list (string * jsval)) :
    list (string * jsval) :=
  filter (λ e, e.1 ≠ k) es ++ [(k, v)].

(** One call on the list. *)
Definition model_exec (cap : Z) (o : op) (es : list (string * jsval)) :
    list (string * jsval) :=
  match o with
  | Put k v =>
      match assoc k es with
      | Some _ => model_touch k v es
      | None =>
          if (cap <? Z.of_nat (length es) + 1)%Z
          then tail (es ++ [(k, v)])
          else es ++ [(k, v)]
      end
  | Purge => tail es
  | Get k =>
      match assoc k es with
      | Some v => model_touch k v es
      | None => es
      end
  | Set_ k v =>
      match assoc k es with
      | Some _ => model_touch k v es
      | None => es
      end
  | Remove k => filter (λ e, e.1 ≠ k) es
  | RemoveAll => []
  | Find _ | ToJSON | ToString | Keys => es
  end.

(** A sequence of calls on the list. *)
Definition model_run (cap : Z) (ops : list op) (es : list (string * jsval)) :
    list (string * jsval) :=
  foldl (λ es o, model_exec cap o es) es ops.




(** ** Heap lemmas: reading a field after an assignment *)

Section heap_fields.
Implicit Types (h : list CacheEntry) (l m : loc) (o : option loc) (v : jsval).

Lemma length_set_value l v h : length (set_value l v h) = length h.
Proof. apply length_alter. Qed.
Lemma length_set_prev l o h : length (set_prev l o h) = length h.
Proof. apply length_alter. Qed.
Lemma length_set_next l o h : length (set_next l o h) = length h.
Proof. apply length_alter. Qed.

Lemma lookup_set_ne (f : CacheEntry → CacheEntry) l m h :
  m ≠ l → alter f l h !! m = h !! m.
Proof. intros. by apply list_lookup_alter_ne. Qed.

Lemma get_next_set_next l o h m :
  (m < length h)%nat →
  get_next (set_next l o h) m = if decide (m = l) then o else get_next h m.
Proof.
  intros Hm. unfold get_next, set_next. rewrite list_lookup_alter.
  destruct (lookup_lt_is_Some_2 h m Hm) as [e He].
  repeat case_decide; subst; try congruence; by rewrite ?He.
Qed.
Lemma get_prev_set_prev l o h m :
  (m < length h)%nat →
  get_prev (set_prev l o h) m = if decide (m = l) then o else get_prev h m.
Proof.
  intros Hm. unfold get_prev, set_prev. rewrite list_lookup_alter.
  destruct (lookup_lt_is_Some_2 h m Hm) as [e He].
  repeat case_decide; subst; try congruence; by rewrite ?He.
Qed.
Lemma get_value_set_value l v h m :
  (m < length h)%nat →
  get_value (set_value l v h) m = if decide (m = l) then v else get_value h m.
Proof.
  intros Hm. unfold get_value, set_value. rewrite list_lookup_alter.
  destruct (lookup_lt_is_Some_2 h m Hm) as [e He].
  repeat case_decide; subst; try congruence; by rewrite ?He.
Qed.

(** Assigning one field leaves the others as they were. *)
Lemma field_set_other (f : CacheEntry → CacheEntry) {A}
    (g : option CacheEntry → A) l h m :
  (∀ e, g (Some (f e)) = g (Some e)) →
  g (alter f l h !! m) = g (h !! m).
Proof.
  intros Hg. rewrite list_lookup_alter. case_decide; [subst|done].
  destruct (h !! m); simpl; [apply Hg|done].
Qed.

Lemma get_next_set_prev l o h m : get_next (set_prev l o h) m = get_next h m.
Proof. apply (field_set_other _ (λ x, x ≫= next)). done. Qed.
Lemma get_next_set_value l v h m : get_next (set_value l v h) m = get_next h m.
Proof. apply (field_set_other _ (λ x, x ≫= next)). done. Qed.
Lemma get_prev_set_next l o h m : get_prev (set_next l o h) m = get_prev h m.
Proof. apply (field_set_other _ (λ x, x ≫= prev)). done. Qed.
Lemma get_prev_set_value l v h m : get_prev (set_value l v h) m = get_prev h m.
Proof. apply (field_set_other _ (λ x, x ≫= prev)). done. Qed.
Lemma get_key_set_prev l o h m : get_key (set_prev l o h) m = get_key h m.
Proof. apply (field_set_other _ (from_option key "undefined"%string)). done. Qed.
Lemma get_key_set_next l o h m : get_key (set_next l o h) m = get_key h m.
Proof. apply (field_set_other _ (from_option key "undefined"%string)). done. Qed.
Lemma get_key_set_value l v h m : get_key (set_value l v h) m = get_key h m.
Proof. apply (field_set_other _ (from_option key "undefined"%string)). done. Qed.
Lemma get_value_set_prev l o h m : get_value (set_prev l o h) m = get_value h m.
Proof. apply (field_set_other _ (from_option value JUndefined)). done. Qed.
Lemma get_value_set_next l o h m : get_value (set_next l o h) m = get_value h m.
Proof. apply (field_set_other _ (from_option value JUndefined)). done. Qed.

(** Allocation of a new object at the end of the heap. *)
Lemma get_next_alloc h e m :
  get_next (h ++ [e]) m =
    if decide (m = length h) then next e else get_next h m.
Proof.
  unfold get_next. case_decide as Hd.
  - subst. by rewrite list_lookup_middle.
  - destruct (decide (m < length h)%nat).
    + by rewrite lookup_app_l.
    + rewrite !lookup_ge_None_2; [done|lia|rewrite length_app; simpl; lia].
Qed.
Lemma get_prev_alloc h e m :
  get_prev (h ++ [e]) m =
    if decide (m = length h) then prev e else get_prev h m.
Proof.
  unfold get_prev. case_decide as Hd.
  - subst. by rewrite list_lookup_middle.
  - destruct (decide (m < length h)%nat).
    + by rewrite lookup_app_l.
    + rewrite !lookup_ge_None_2; [done|lia|rewrite length_app; simpl; lia].
Qed.
Lemma get_key_alloc h e m :
  get_key (h ++ [e]) m =
    if decide (m = length h) then key e else get_key h m.
Proof.
  unfold get_key. case_decide as Hd.
  - subst. by rewrite list_lookup_middle.
  - destruct (decide (m < length h)%nat).
    + by rewrite lookup_app_l.
    + rewrite !lookup_ge_None_2; [done|lia|rewrite length_app; simpl; lia].
Qed.
Lemma get_value_alloc h e m :
  get_value (h ++ [e]) m =
    if decide (m = length h) then value e else get_value h m.
Proof.
  unfold get_value. case_decide as Hd.
  - subst. by rewrite list_lookup_middle.
  - destruct (decide (m < length h)%nat).
    + by rewrite lookup_app_l.
    + rewrite !lookup_ge_None_2; [done|lia|rewrite length_app; simpl; lia].
Qed.
End heap_fields.

Ltac heap_len :=
  repeat first [rewrite length_set_prev | rewrite length_set_next
               | rewrite length_set_value | rewrite length_app ];
  simpl; first [lia | done | eauto].

Ltac heap_simpl :=
  repeat first
    [ rewrite length_set_prev | rewrite length_set_next | rewrite length_set_value
    | rewrite get_next_set_prev | rewrite get_next_set_value
    | rewrite get_prev_set_next | rewrite get_prev_set_value
    | rewrite get_key_set_prev | rewrite get_key_set_next | rewrite get_key_set_value
    | rewrite get_value_set_prev | rewrite get_value_set_next
    | rewrite get_next_set_next by heap_len
    | rewrite get_prev_set_prev by heap_len
    | rewrite get_value_set_value by heap_len
    | rewrite get_next_alloc | rewrite get_prev_alloc | rewrite get_value_alloc
    | rewrite get_key_alloc ].

(** ** Lemmas on doubly linked segments *)

Section dseg_lemmas.
Implicit Types (h : list CacheEntry) (l m : loc) (p n : option loc)
  (ls A B : list loc).

Lemma hd_or_app A B n : hd_or (A ++ B) n = hd_or A (hd_or B n).
Proof. by destruct A. Qed.

Lemma last_or_cons l A p : last_or (l :: A) p = last_or A (Some l).
Proof. unfold last_or. destruct A as [|a A]; [done|]. by rewrite last_cons_cons;
  destruct (last (a :: A)) eqn:E; [|apply last_None in E]. Qed.

Lemma last_or_app A B p : last_or (A ++ B) p = last_or B (last_or A p).
Proof.
  revert p. induction A as [|a A IH]; intros p; [done|].
  simpl. by rewrite !last_or_cons, IH.
Qed.

Lemma last_or_snoc A l p : last_or (A ++ [l]) p = Some l.
Proof. unfold last_or. by rewrite last_snoc. Qed.

Lemma dseg_app h p A B n :
  dseg h p (A ++ B) n ↔ dseg h p A (hd_or B n) ∧ dseg h (last_or A p) B n.
Proof.
  revert p. induction A as [|a A IH]; intros p; simpl.
  - unfold last_or; simpl. tauto.
  - rewrite hd_or_app, last_or_cons, IH. tauto.
Qed.

Lemma dseg_allocated h p ls n l : dseg h p ls n → l ∈ ls → (l < length h)%nat.
Proof.
  revert p. induction ls as [|a ls IH]; intros p H Hin; [by inversion Hin|].
  destruct H as (? & _ & _ & H). apply elem_of_cons in Hin as [->|Hin]; eauto.
Qed.

(** The heap may change under a segment as long as the links inside it
    stay; the outer links [p] and [n] may be redirected. *)
Lemma dseg_update h h' p p' ls n n' :
  NoDup ls →
  dseg h p ls n →
  (∀ l, l ∈ ls → (l < length h')%nat) →
  (∀ l, l ∈ ls → head ls ≠ Some l → get_prev h' l = get_prev h l) →
  (∀ l, head ls = Some l → get_prev h' l = p') →
  (∀ l, l ∈ ls → last ls ≠ Some l → get_next h' l = get_next h l) →
  (∀ l, last ls = Some l → get_next h' l = n') →
  dseg h' p' ls n'.
Proof.
  revert p p'. induction ls as [|a ls IH]; intros p p' Hnd H Hal Hp Hp0 Hn Hn0; [done|].
  apply NoDup_cons in Hnd as [Hnin Hnd].
  destruct H as (Ha & Hpa & Hna & H). simpl.
  split_and!.
  - apply Hal. left.
  - by apply Hp0.
  - destruct ls as [|b ls]; simpl.
    + by apply Hn0.
    + rewrite Hn; [done|left|]. rewrite last_cons_cons.
      intros Hl. apply Hnin. by apply last_Some_elem_of.
  - apply (IH (Some a)); try done.
    + intros l Hl. apply Hal. by right.
    + intros l Hl Hhd. apply Hp; [by right|]. simpl. intros [= ->]. done.
    + intros l Hhd. destruct ls as [|b ls]; simplify_eq/=.
      destruct H as (_ & Hpb & _). rewrite Hp; [done|right; left|].
      intros [= ->]. apply Hnin. left.
    + intros l Hl Hlast. apply Hn; [by right|].
      destruct ls as [|b ls]; [by inversion Hl|]. by rewrite last_cons_cons.
    + intros l Hlast. apply Hn0.
      destruct ls as [|b ls]; [done|]. by rewrite last_cons_cons.
Qed.

(** Appending an object at the most-recently-used end. *)
Lemma dseg_snoc h h' ls x :
  NoDup ls → x ∉ ls →
  dseg h None ls None →
  (x < length h')%nat →
  (∀ l, l ∈ ls → (l < length h')%nat) →
  get_prev h' x = last ls →
  get_next h' x = None →
  (∀ l, l ∈ ls → get_prev h' l = get_prev h l) →
  (∀ l, l ∈ ls → last ls ≠ Some l → get_next h' l = get_next h l) →
  (∀ l, last ls = Some l → get_next h' l = Some x) →
  dseg h' None (ls ++ [x]) None.
Proof.
  intros Hnd Hx H Hxa Hal Hpx Hnx Hp Hn Hn0.
  apply dseg_app. split.
  - eapply dseg_update; eauto.
    intros l Hhd. rewrite Hp; [|by apply head_Some_elem_of].
    destruct ls; simplify_eq/=. tauto.
  - simpl. split_and!; try done.
    rewrite Hpx. unfold last_or. by destruct (last ls).
Qed.

(** Taking [x] out of the chain [A ++ x :: B]. *)
Lemma dseg_unlink h h' A x B :
  NoDup (A ++ x :: B) →
  dseg h None (A ++ x :: B) None →
  (∀ l, l ∈ A ++ B → (l < length h')%nat) →
  (∀ l, l ∈ A ++ B → head B ≠ Some l → get_prev h' l = get_prev h l) →
  (∀ l, head B = Some l → get_prev h' l = last A) →
  (∀ l, l ∈ A ++ B → last A ≠ Some l → get_next h' l = get_next h l) →
  (∀ l, last A = Some l → get_next h' l = head B) →
  dseg h' None (A ++ B) None.
Proof.
  intros Hnd H Hal Hp Hp0 Hn Hn0.
  apply NoDup_app in Hnd as (HndA & HAB & HndB).
  apply NoDup_cons in HndB as [HxB HndB].
  apply dseg_app in H as [HA HB]. simpl in HB.
  destruct HB as (Hxa & Hpx & Hnx & HB).
  assert (∀ l, l ∈ A → l ∉ B) as HAB'.
  { intros l Hl HlB. apply (HAB l Hl). by right. }
  apply dseg_app. split.
  - eapply dseg_update; [done|exact HA|..].
    + intros l Hl. apply Hal, elem_of_app. by left.
    + intros l Hl _. apply Hp; [apply elem_of_app; by left|].
      intros Hhd. apply (HAB' l Hl). by apply head_Some_elem_of.
    + intros l Hhd. rewrite Hp.
      * destruct A; simplify_eq/=. tauto.
      * apply elem_of_app; left. by apply head_Some_elem_of.
      * intros Hhd'. apply (HAB' l); by apply head_Some_elem_of.
    + intros l Hl Hlast. apply Hn; [apply elem_of_app; by left|done].
    + intros l Hlast. rewrite (Hn0 l Hlast). by destruct B.
  - eapply dseg_update; [done|exact HB|..].
    + intros l Hl. apply Hal, elem_of_app. by right.
    + intros l Hl Hhd. apply Hp; [apply elem_of_app; by right|done].
    + intros l Hhd. rewrite (Hp0 l Hhd). unfold last_or. by destruct (last A).
    + intros l Hl _. apply Hn; [apply elem_of_app; by right|].
      intros Hlast. apply (HAB' l); [by apply last_Some_elem_of|done].
    + intros l Hlast. rewrite Hn.
      * assert (l ∈ B) as HlB by by apply last_Some_elem_of.
        clear -HB Hlast. revert HB Hlast. generalize (Some x).
        induction B as [|b B IH]; intros q HB Hlast; [done|].
        destruct HB as (_ & _ & Hnb & HB).
        destruct B as [|c B]; [by simplify_eq/=|].
        rewrite last_cons_cons in Hlast. by eapply IH.
      * apply elem_of_app; right. by apply last_Some_elem_of.
      * intros Hlast'. apply (HAB' l); by apply last_Some_elem_of.
Qed.

Lemma dseg_ext h h' p ls n :
  dseg h p ls n →
  (∀ l, l ∈ ls →
     (l < length h')%nat ∧ get_prev h' l = get_prev h l ∧
     get_next h' l = get_next h l) →
  dseg h' p ls n.
Proof.
  revert p. induction ls as [|a ls IH]; intros p H Hext; [done|].
  destruct H as (Ha & Hpa & Hna & H).
  destruct (Hext a) as (? & Hpa' & Hna'); [left|]. simpl.
  rewrite Hpa', Hna'.
  split_and!; try done. apply IH; [done|]. intros l Hl. apply Hext. by right.
Qed.

Lemma walk_next_dseg h p ls n :
  dseg h p ls n → walk_next (length ls) h (hd_or ls None) = ls.
Proof.
  revert p. induction ls as [|a ls IH]; intros p H; [done|].
  destruct H as (_ & _ & Hna & H). simpl. f_equal.
  rewrite Hna. destruct ls as [|b ls]; [done|]. by apply (IH (Some a)).
Qed.
End dseg_lemmas.

(** ** Lemmas on the representation invariant *)

Lemma Rep_nodes s ls : Rep s ls → nodes s = ls.
Proof.
  intros [_ Hsz Hl _ Hd _]. unfold nodes. rewrite Hsz, Nat2Z.id, Hl.
  replace (head ls) with (hd_or ls None) by by destruct ls.
  by eapply walk_next_dseg.
Qed.

Lemma Rep_allocated s ls l : Rep s ls → l ∈ ls → (l < length (heap s))%nat.
Proof. intros H. eapply dseg_allocated, H. Qed.

Lemma Rep_lookup s ls k l : Rep s ls → _store s !! k = Some l → l ∈ ls.
Proof. intros H Hk. by apply (rep_store _ _ H) in Hk as [? _]. Qed.

Lemma Rep_lookup_key s ls k l :
  Rep s ls → _store s !! k = Some l → get_key (heap s) l = k.
Proof. intros H Hk. by apply (rep_store _ _ H) in Hk as [_ ?]. Qed.

Lemma Rep_newInstance cap : Rep (newInstance cap) [].
Proof.
  split; simpl; try done; [constructor|].
  intros k l. rewrite lookup_empty. split; [done|]. intros [Hl _]. inversion Hl.
Qed.

Lemma Rep_split_facts s A x B :
  Rep s (A ++ x :: B) →
  (x < length (heap s))%nat ∧ get_prev (heap s) x = last A ∧
  get_next (heap s) x = head B ∧ (x ∉ A) ∧ (x ∉ B) ∧ (∀ l, l ∈ A → l ∉ B) ∧
  NoDup A ∧ NoDup B ∧
  _last s = Some (default x (head A)) ∧ _first s = Some (default x (last B)).
Proof.
  intros [Hnd _ Hl Hf Hd _].
  apply dseg_app in Hd as [_ (Hxa & Hp & Hn & _)].
  apply NoDup_app in Hnd as (HndA & HAB & HndB).
  apply NoDup_cons in HndB as [HxB HndB].
  split_and!; [done| | | | done | | done | done | |].
  - rewrite Hp. unfold last_or. by destruct (last A).
  - rewrite Hn. by destruct B.
  - intros HxA. apply (HAB x HxA). left.
  - intros l Hl' HlB. apply (HAB l Hl'). by right.
  - rewrite Hl. by destruct A.
  - rewrite Hf, last_app. simpl. destruct B as [|b B]; [done|].
    rewrite last_cons_cons. destruct (last (b :: B)) eqn:E; [done|].
    by apply last_None in E.
Qed.

Lemma moveToFront_Rep s A x B :
  Rep s (A ++ x :: B) →
  Rep (_moveToFront x s) (A ++ B ++ [x]) ∧
  length (heap (_moveToFront x s)) = length (heap s) ∧
  (∀ l, get_key (heap (_moveToFront x s)) l = get_key (heap s) l) ∧
  (∀ l, get_value (heap (_moveToFront x s)) l = get_value (heap s) l) ∧
  _size (_moveToFront x s) = _size s ∧
  _cacheLimit (_moveToFront x s) = _cacheLimit s ∧
  _store (_moveToFront x s) = _store s.
Proof.
  intros H.
  destruct (Rep_split_facts _ _ _ _ H) as (Hxa & Hpx & Hnx & HxA & HxB & HAB & HndA & HndB & Hlast & Hfirst).
  destruct B as [|b B].
  { unfold _moveToFront. simpl in Hfirst. rewrite decide_True by done. by rewrite app_nil_l. }
  assert (∃ f, last (b :: B) = Some f) as [f Hf].
  { destruct (last (b :: B)) eqn:E; [eauto|by apply last_None in E]. }
  assert (f ∈ b :: B) as HfB by by apply last_Some_elem_of.
  rewrite Hf in Hfirst. simpl in Hfirst.
  simpl in Hnx.
  assert (x ≠ b) as Hxb by (intros ->; apply HxB; left).
  assert (x ≠ f) as Hxf by (intros ->; done).
  set (h := heap s) in *.
  set (h2 := match last A with Some a => set_next a (Some b) | None => id end (set_prev b (last A) h)).
  set (h5 := set_next f (Some x) (set_prev x (Some f) (set_next x None h2))).
  assert (_moveToFront x s = mkLRUCache h5 (_size s) (_cacheLimit s) (Some x)
            (Some (default b (head A))) (_store s)) as ->.
  { unfold _moveToFront. rewrite decide_False; [|rewrite Hfirst; intros [= ->]; done].
    fold h. rewrite Hnx.
    assert (get_prev (set_prev b (last A) h) x = last A) as Hpx'.
    { heap_simpl. fold h. rewrite decide_False; done. }
    destruct s as [h0 sz cap fst lst st]; simpl in *. subst fst lst h5 h2 h.
    cbv [upd_heap with_last with_first]; simpl. case_decide as Hd; simpl.
    - destruct A as [|a0 A0]; [|exfalso; simplify_eq/=; apply HxA; left].
      simpl in *. rewrite Hpx. simpl.
      rewrite Hpx'. simpl. done.
    - destruct A as [|a0 A0]; [by simplify_eq/=|]. rewrite Hpx. simpl. rewrite Hpx'. simpl.
      destruct (last (a0 :: A0)) eqn:E; [|by apply last_None in E].
      simpl. heap_simpl. rewrite Hnx. done. }
  assert (length h2 = length h) as Hlen2.
  { subst h2. destruct (last A); simpl; heap_len. }
  assert (NoDup (A ++ b :: B)) as Hnd2.
  { apply NoDup_app. split_and!; try done. }
  assert (x ∉ A ++ b :: B) as Hx2.
  { rewrite elem_of_app. tauto. }
  assert (last (A ++ b :: B) = Some f) as Hlast2.
  { rewrite last_app, Hf. done. }
  assert (∀ l, l ∈ A ++ b :: B → (l < length h)%nat) as Hal.
  { intros l Hl. eapply Rep_allocated; [exact H|].
    rewrite elem_of_app in Hl. rewrite elem_of_app, elem_of_cons. tauto. }
  assert (b < length h)%nat as Hba by (apply Hal, elem_of_app; right; left).
  assert (dseg h2 None (A ++ b :: B) None) as Hd2.
  { eapply (dseg_unlink h h2 A x (b :: B)); [apply H|apply H|..].
    - intros l Hl. rewrite Hlen2. by apply Hal.
    - intros l Hl Hhd. pose proof (Hal l Hl).
      subst h2. destruct (last A); simpl; heap_simpl;
        rewrite decide_False; try done; intros ->; by apply Hhd.
    - intros l [= ->]. subst h2. destruct (last A); simpl; heap_simpl;
        by rewrite ?decide_True.
    - intros l Hl Hla. pose proof (Hal l Hl).
      subst h2. destruct (last A) as [a|]; simpl; heap_simpl; [|done].
      rewrite decide_False; [done|]. intros ->. done.
    - intros l Hla. subst h2. rewrite Hla. simpl.
      assert (l < length h)%nat.
      { apply Hal, elem_of_app. left. by apply last_Some_elem_of. }
      heap_simpl. by rewrite decide_True. }
  assert (∀ l, get_key h5 l = get_key h l) as Hkey.
  { intros l. subst h5 h2. destruct (last A); simpl; by heap_simpl. }
  assert (∀ l, get_value h5 l = get_value h l) as Hval.
  { intros l. subst h5 h2. destruct (last A); simpl; by heap_simpl. }
  assert (length h5 = length h) as Hlen5.
  { subst h5. heap_len. }
  assert (f < length h)%nat as Hfa by (apply Hal, elem_of_app; by right).
  rewrite (app_assoc A (b :: B) [x]).
  simpl. split_and!; try done.
  split; simpl.
  - apply NoDup_app. split_and!; [done| |apply NoDup_singleton].
    intros l Hl ->%list_elem_of_singleton. done.
  - rewrite (rep_size _ _ H). rewrite !length_app. simpl. lia.
  - by destruct A.
  - by rewrite last_snoc.
  - apply (dseg_snoc h2 h5); try done.
    + lia.
    + intros l Hl. rewrite Hlen5. by apply Hal.
    + subst h5. heap_simpl. rewrite decide_True by done. by rewrite Hlast2.
    + subst h5. heap_simpl. rewrite decide_False by done. by rewrite decide_True.
    + intros l Hl. pose proof (Hal l Hl). subst h5. heap_simpl.
      rewrite decide_False; [done|]. intros ->. done.
    + intros l Hl Hla. pose proof (Hal l Hl). subst h5. heap_simpl.
      rewrite !decide_False; [done| |]; intros ->; [done|]. by rewrite Hlast2 in Hla.
    + intros l Hla. rewrite Hlast2 in Hla. simplify_eq. subst h5. heap_simpl.
      by rewrite decide_True.
  - intros k l. rewrite (rep_store _ _ H), Hkey.
    rewrite !elem_of_app, !elem_of_cons, elem_of_nil. tauto.
Qed.

Lemma store_delete (h : list CacheEntry) (st : gmap string nat) A x B :
  NoDup (A ++ x :: B) →
  (∀ k l, st !! k = Some l ↔ l ∈ A ++ x :: B ∧ get_key h l = k) →
  ∀ k l, delete (get_key h x) st !! k = Some l ↔ l ∈ A ++ B ∧ get_key h l = k.
Proof.
  intros Hnd Hst k l.
  assert (x ∉ A ++ B) as Hx.
  { apply NoDup_app in Hnd as (_ & HAB & [HxB _]%NoDup_cons).
    rewrite elem_of_app. intros [HxA|?]; [|done]. apply (HAB x HxA). left. }
  assert (st !! get_key h x = Some x) as Hkx.
  { apply Hst. split; [|done]. rewrite elem_of_app, elem_of_cons. tauto. }
  rewrite lookup_delete. case_decide as Hk.
  - split; [done|]. intros [Hl Hkl]. subst k.
    assert (st !! get_key h x = Some l) as Hkl'.
    { apply Hst. split; [|done]. revert Hl. rewrite !elem_of_app, elem_of_cons. tauto. }
    congruence.
  - rewrite Hst. rewrite !elem_of_app, elem_of_cons. split.
    + intros [[?|[->|?]] ?]; tauto.
    + tauto.
Qed.


Lemma purge_Rep s x B :
  Rep s (x :: B) →
  (purge s).1 = JRef x ∧
  Rep (purge s).2 B ∧
  length (heap (purge s).2) = length (heap s) ∧
  (∀ l, get_key (heap (purge s).2) l = get_key (heap s) l) ∧
  (∀ l, get_value (heap (purge s).2) l = get_value (heap s) l) ∧
  get_prev (heap (purge s).2) x = None ∧
  get_next (heap (purge s).2) x = None ∧
  _size (purge s).2 = (_size s - 1)%Z ∧
  _cacheLimit (purge s).2 = _cacheLimit s ∧
  _store (purge s).2 = delete (get_key (heap s) x) (_store s).
Proof.
  intros H.
  destruct (Rep_split_facts s [] x B H)
    as (Hxa & Hpx & Hnx & _ & HxB & _ & _ & HndB & Hlast & Hfirst).
  set (h := heap s) in *.
  set (h' := set_next x None (set_prev x None
               (match head B with Some b => set_prev b None h | None => h end))).
  assert (purge s = (JRef x, mkLRUCache h' (_size s - 1) (_cacheLimit s)
            (last B) (head B) (delete (get_key h x) (_store s)))) as ->.
  { unfold purge. rewrite Hlast. simpl. fold h. rewrite Hnx.
    destruct s as [h0 sz cap fst lst st]; simpl in *. subst h h'.
    destruct B as [|b B]; cbv [upd_heap with_last with_first with_size upd_store]; simpl.
    - by heap_simpl.
    - heap_simpl. do 3 f_equal. rewrite Hfirst. rewrite last_cons.
      by destruct (last B). }
  assert (length h' = length h) as Hlen.
  { subst h'. destruct (head B); heap_len. }
  assert (∀ l, get_key h' l = get_key h l) as Hkey.
  { intros l. subst h'. destruct (head B); by heap_simpl. }
  assert (∀ l, get_value h' l = get_value h l) as Hval.
  { intros l. subst h'. destruct (head B); by heap_simpl. }
  assert (∀ l, l ∈ B → (l < length h)%nat) as Hal.
  { intros l Hl. eapply Rep_allocated; [exact H|]. by right. }
  simpl. split_and!; try done.
  - split; simpl; try done.
    + rewrite (rep_size _ _ H). simpl. lia.
    + apply (dseg_unlink h h' [] x B); [apply H|apply H|..]; simpl.
      * intros l Hl. rewrite Hlen. by apply Hal.
      * intros l Hl Hhd. pose proof (Hal l Hl). subst h'.
        destruct (head B) as [b|]; heap_simpl; rewrite ?decide_False; try done;
          intros ->; done.
      * intros l Hhd. subst h'. rewrite Hhd.
        assert (l ∈ B) as Hl by by apply head_Some_elem_of.
        pose proof (Hal l Hl). heap_simpl.
        rewrite decide_False by (by intros ->). by rewrite decide_True.
      * intros l Hl _. pose proof (Hal l Hl). subst h'.
        destruct (head B) as [b|]; heap_simpl; rewrite ?decide_False; try done;
          intros ->; done.
      * done.
    + intros k l. rewrite Hkey. apply (store_delete h (_store s) [] x B); apply H.
  - subst h'. destruct (head B); heap_simpl; by rewrite decide_True.
  - subst h'. destruct (head B); heap_simpl; by rewrite decide_True.
Qed.

Lemma remove_miss k s : _store s !! k = None → remove k s = (JUndefined, s).
Proof. intros H. unfold remove. by rewrite H. Qed.

Lemma remove_Rep s A x B k :
  Rep s (A ++ x :: B) →
  _store s !! k = Some x →
  (remove k s).1 = get_value (heap s) x ∧
  Rep (remove k s).2 (A ++ B) ∧
  length (heap (remove k s).2) = length (heap s) ∧
  (∀ l, get_key (heap (remove k s).2) l = get_key (heap s) l) ∧
  (∀ l, get_value (heap (remove k s).2) l = get_value (heap s) l) ∧
  _size (remove k s).2 = (_size s - 1)%Z ∧
  _cacheLimit (remove k s).2 = _cacheLimit s ∧
  _store (remove k s).2 = delete k (_store s).
Proof.
  intros H Hk.
  destruct (Rep_split_facts s A x B H)
    as (Hxa & Hpx & Hnx & HxA & HxB & HAB & HndA & HndB & Hlast & Hfirst).
  pose proof (Rep_lookup_key _ _ _ _ H Hk) as Hkx.
  set (h := heap s) in *.
  set (h' := match head B with Some b => set_prev b (last A) | None => id end
              (match last A with Some a => set_next a (head B) | None => id end h)).
  assert (remove k s = (get_value h x, mkLRUCache h' (_size s - 1) (_cacheLimit s)
            (last (A ++ B)) (head (A ++ B)) (delete k (_store s)))) as ->.
  { unfold remove. rewrite Hk. fold h. rewrite Hkx.
    destruct s as [h0 sz cap fst lst st];
      cbv [upd_heap with_last with_first with_size upd_store]; simpl in *.
    subst h h'. rewrite Hpx, Hnx.
    destruct B as [|b B]; simpl.
    - rewrite app_nil_r. destruct (last A) as [a|] eqn:Ea; simpl.
      + heap_simpl. do 2 f_equal. rewrite Hlast. by destruct A.
      + apply last_None in Ea. by subst A.
    - assert (last (A ++ b :: B) = fst) as Hfst.
      { rewrite Hfirst, last_app, last_cons. simpl. by destruct (last B). }
      rewrite Hfst. destruct (last A) as [a|] eqn:Ea; simpl.
      + assert (x ≠ a) by (intros ->; apply HxA; by apply last_Some_elem_of).
        heap_simpl. rewrite decide_False by done. rewrite Hnx, Hpx. simpl.
        heap_simpl. do 2 f_equal. rewrite Hlast. by destruct A.
      + apply last_None in Ea. subst A. simpl. by heap_simpl.
  }
  assert (length h' = length h) as Hlen.
  { subst h'. destruct (head B), (last A); simpl; heap_len. }
  assert (∀ l, get_key h' l = get_key h l) as Hkey.
  { intros l. subst h'. destruct (head B), (last A); simpl; by heap_simpl. }
  assert (∀ l, get_value h' l = get_value h l) as Hval.
  { intros l. subst h'. destruct (head B), (last A); simpl; by heap_simpl. }
  assert (∀ l, l ∈ A ++ B → (l < length h)%nat) as Hal.
  { intros l Hl. eapply Rep_allocated; [exact H|].
    revert Hl. rewrite !elem_of_app, elem_of_cons. tauto. }
  simpl. split_and!; try done.
  split; simpl; try done.
  - apply NoDup_app. split_and!; try done.
  - rewrite (rep_size _ _ H). rewrite !length_app. simpl. lia.
  - apply (dseg_unlink h h' A x B); [apply H|apply H|..].
    + intros l Hl. rewrite Hlen. by apply Hal.
    + intros l Hl Hhd. pose proof (Hal l Hl). subst h'.
      destruct (head B) as [b|], (last A) as [a|]; simpl; heap_simpl;
        rewrite ?decide_False; try done; intros ->; done.
    + intros l Hhd. subst h'. rewrite Hhd.
      assert (l < length h)%nat.
      { apply Hal, elem_of_app. right. by apply head_Some_elem_of. }
      destruct (last A) as [a|]; simpl; heap_simpl; by rewrite decide_True.
    + intros l Hl Hla. pose proof (Hal l Hl). subst h'.
      destruct (head B) as [b|], (last A) as [a|]; simpl; heap_simpl;
        rewrite ?decide_False; try done; intros ->; done.
    + intros l Hla. subst h'. rewrite Hla.
      assert (l < length h)%nat.
      { apply Hal, elem_of_app. left. by apply last_Some_elem_of. }
      destruct (head B) as [b|]; simpl; heap_simpl; by rewrite decide_True.
  - intros k' l. rewrite Hkey. rewrite <- Hkx.
    apply (store_delete h (_store s) A x B); apply H.
Qed.

Lemma set_value_Rep s ls x v :
  Rep s ls → Rep (upd_heap (set_value x v) s) ls.
Proof.
  intros H. split; simpl; try apply H.
  - eapply dseg_ext; [apply H|]. intros l Hl. heap_simpl.
    split; [|done]. by eapply Rep_allocated.
  - intros k l. heap_simpl. apply H.
Qed.

Lemma put_miss_eq k v s :
  _store s !! k = None →
  put k v s =
    if (_cacheLimit s <? _size s + 1)%Z then purge (link_new k v s)
    else (JUndefined, link_new k v s).
Proof.
  intros Hk. unfold put, link_new. rewrite Hk.
  destruct s as [h sz cap fst lst st]; simpl. by destruct fst.
Qed.

Lemma link_new_Rep k v s ls :
  Rep s ls →
  _store s !! k = None →
  Rep (link_new k v s) (ls ++ [length (heap s)]) ∧
  length (heap (link_new k v s)) = S (length (heap s)) ∧
  (∀ l, get_key (heap (link_new k v s)) l =
          if decide (l = length (heap s)) then k else get_key (heap s) l) ∧
  (∀ l, get_value (heap (link_new k v s)) l =
          if decide (l = length (heap s)) then v else get_value (heap s) l).
Proof.
  intros H Hk. set (x := length (heap s)).
  assert (∀ l, l ∈ ls → (l < x)%nat) as Hal.
  { intros l Hl. by eapply Rep_allocated. }
  assert (x ∉ ls) as Hx.
  { intros Hx. apply Hal in Hx. lia. }
  assert (∀ l, get_key (heap (link_new k v s)) l =
            if decide (l = x) then k else get_key (heap s) l) as Hkey.
  { intros l. unfold link_new. simpl. destruct (_first s); heap_simpl; done. }
  unfold link_new in *. simpl in *. fold x in Hkey |- *.
  set (h := heap s) in *.
  set (h1 := h ++ [mkCacheEntry k v None None]) in *.
  assert (length h1 = S x) as Hlen1.
  { subst h1. rewrite length_app. simpl. lia. }
  assert (∀ f, _first s = Some f → f ∈ ls ∧ f ≠ x ∧ (f < x)%nat) as Hf.
  { intros f Hf. rewrite (rep_first _ _ H) in Hf.
    apply last_Some_elem_of in Hf. split; [done|]. apply Hal in Hf. lia. }
  split_and!.
  - split; simpl.
    + apply NoDup_app. split_and!; [apply H| |apply NoDup_singleton].
      intros l Hl ->%list_elem_of_singleton. done.
    + rewrite (rep_size _ _ H), length_app. simpl. lia.
    + rewrite (rep_first _ _ H), (rep_last _ _ H).
      destruct ls as [|a ls]; [done|]. simpl.
      destruct (last (a :: ls)) eqn:E; [done|]. by apply last_None in E.
    + by rewrite last_snoc.
    + eapply (dseg_snoc h); [apply H|done|apply H|..].
      * destruct (_first s); heap_len.
      * intros l Hl. apply Hal in Hl. destruct (_first s); heap_len.
      * rewrite <- (rep_first _ _ H). destruct (_first s) as [f|] eqn:Ef.
        -- heap_simpl. by rewrite decide_True.
        -- subst h1. heap_simpl. by rewrite decide_True.
      * destruct (_first s) as [f|] eqn:Ef.
        -- destruct (Hf f eq_refl) as (_ & ? & ?). subst h1. heap_simpl.
           rewrite decide_False by done. by rewrite decide_True.
        -- subst h1. heap_simpl. by rewrite decide_True.
      * intros l Hl. pose proof (Hal l Hl). subst h1.
        destruct (_first s) as [f|] eqn:Ef; heap_simpl;
          rewrite !decide_False by lia; done.
      * intros l Hl Hla. pose proof (Hal l Hl). subst h1.
        rewrite <- (rep_first _ _ H) in Hla.
        destruct (_first s) as [f|] eqn:Ef; heap_simpl.
        -- rewrite !decide_False; [done|lia|congruence].
        -- rewrite !decide_False; [done|lia].
      * intros l Hla. rewrite <- (rep_first _ _ H) in Hla. rewrite Hla.
        destruct (Hf l Hla) as (_ & ? & ?). subst h1. heap_simpl.
        by rewrite decide_True.
    + intros k' l. rewrite Hkey. rewrite elem_of_app, list_elem_of_singleton.
      rewrite lookup_insert. case_decide as Hkk; subst.
      * split.
        -- intros [= <-]. rewrite decide_True by done. tauto.
        -- intros [[Hl| ->] Hkl]; [|done]. pose proof (Hal l Hl).
           rewrite decide_False in Hkl by lia. 
           assert (_store s !! k' = Some l) as Hsl by by apply (rep_store _ _ H).
           congruence.
      * rewrite (rep_store _ _ H). split.
        -- intros [Hl Hkl]. pose proof (Hal l Hl). rewrite decide_False by lia. tauto.
        -- intros [[Hl| ->] Hkl].
           ++ pose proof (Hal l Hl). rewrite decide_False in Hkl by lia. tauto.
           ++ by rewrite decide_True in Hkl.
  - destruct (_first s); heap_len.
  - done.
  - intros l. subst h1. destruct (_first s); heap_simpl; done.
Qed.

(** ** The structural invariant and the representation agree *)

Lemma dseg_chains h p ls n :
  dseg h p ls n ↔
  (∀ l, l ∈ ls → (l < length h)%nat) ∧ nchain h ls n ∧ pchain h p ls.
Proof.
  revert p. induction ls as [|a ls IH]; intros p; simpl.
  - split; [|done]. intros _. split_and!; try done. intros l Hl. inversion Hl.
  - rewrite IH. split.
    + intros (? & ? & ? & Hal & ? & ?). split_and!; try done.
      intros l [->|Hl]%elem_of_cons; eauto.
    + intros (Hal & [? ?] & [? ?]). split_and!; try done.
      * apply Hal. left.
      * intros l Hl. apply Hal. by right.
Qed.

Lemma walk_next_nchain h ls o :
  walk_next (S (length ls)) h o = ls ↔ o = head ls ∧ nchain h ls None.
Proof.
  revert o. induction ls as [|a ls IH]; intros o.
  - simpl. destruct o; split; try done. by intros [? _].
  - change (walk_next (S (length (a :: ls))) h o) with
      (match o with Some l => l :: walk_next (S (length ls)) h (get_next h l) | None => [] end).
    cbn [head nchain]. destruct o as [l|].
    + split.
      * intros [= -> Hw]. apply IH in Hw as [Hhd Hc]. split_and!; try done.
      * intros [[= ->] [Hn Hc]]. f_equal. apply IH. split; [|done].
        rewrite Hn. by destruct ls.
    + split; [done|]. by intros [? _].
Qed.

Lemma walk_prev_pchain h ls o :
  walk_prev (S (length ls)) h o = reverse ls ↔ o = last ls ∧ pchain h None ls.
Proof.
  revert o. induction ls as [|a ls IH] using rev_ind; intros o.
  - simpl. destruct o; split; try done. by intros [? _].
  - rewrite reverse_snoc, last_snoc, length_app. simpl.
    replace (length ls + 1)%nat with (S (length ls)) by lia.
    change (walk_prev (S (S (length ls))) h o) with
      (match o with Some l => l :: walk_prev (S (length ls)) h (get_prev h l) | None => [] end).
    assert (∀ p, pchain h p (ls ++ [a]) ↔ pchain h p ls ∧ get_prev h a = last_or ls p) as Hsnoc.
    { clear. induction ls as [|b ls IH]; intros p; simpl.
      - unfold last_or. simpl. tauto.
      - rewrite IH, last_or_cons. tauto. }
    rewrite Hsnoc. unfold last_or.
    destruct o as [l|].
    + split.
      * intros [= -> Hw]. apply IH in Hw as [Hhd Hc]. split_and!; try done.
        rewrite Hhd. by destruct (last ls).
      * intros [[= ->] [Hn Hc]]. f_equal. apply IH. split; [|done].
        rewrite Hc. by destruct (last ls).
    + split; [done|]. by intros [? _].
Qed.

Lemma dseg_next_prev h p ls n l m :
  dseg h p ls n → l ∈ ls → get_next h l = Some m →
  n = Some m ∨ get_prev h m = Some l.
Proof.
  revert p. induction ls as [|a ls IH]; intros p H Hl Hn; [by inversion Hl|].
  destruct H as (_ & _ & Hna & H).
  apply elem_of_cons in Hl as [->|Hl]; [|by eapply IH].
  rewrite Hn in Hna. destruct ls as [|b ls]; simpl in Hna; [by left|].
  simplify_eq. right. by destruct H as (_ & ? & _).
Qed.

Lemma dseg_prev_next h p ls n l m :
  dseg h p ls n → l ∈ ls → get_prev h l = Some m →
  (p = Some m ∧ head ls = Some l) ∨ get_next h m = Some l.
Proof.
  revert p. induction ls as [|a ls IH]; intros p H Hl Hp; [by inversion Hl|].
  destruct H as (_ & Hpa & Hna & H).
  apply elem_of_cons in Hl as [->|Hl]; [left; split; [congruence|done]|].
  destruct (IH _ H Hl Hp) as [[[= ->] Hhd]|?]; [|by right].
  right. rewrite Hna. by destruct ls; simplify_eq/=.
Qed.

Lemma Rep_structural s ls : Rep s ls → structural s.
Proof.
  intros H. pose proof (Rep_nodes _ _ H) as Hn.
  destruct H as [Hnd Hsz Hl Hf Hd Hst].
  pose proof Hd as (Hal & Hnc & Hpc)%dseg_chains.
  split; rewrite ?Hn, ?Hsz, ?Nat2Z.id; try done.
  - lia.
  - apply walk_next_nchain. by rewrite Hl.
  - apply walk_prev_pchain. by rewrite Hf.
  - intros l m Hlin. split; intros Hlm.
    + by destruct (dseg_next_prev _ _ _ _ _ _ Hd Hlin Hlm).
    + by destruct (dseg_prev_next _ _ _ _ _ _ Hd Hlin Hlm) as [[? _]|?].
  - rewrite Hl, Hf. destruct ls as [|a ls]; simpl; [done|].
    split; [lia|]. by intros [_ ?].
Qed.

Lemma structural_Rep s : structural s → Rep s (nodes s).
Proof.
  intros [Hsz Hlen Hne Hnd Hf Hp Hal Hsym Hst Hem].
  rewrite <- Hlen in Hne, Hp.
  apply walk_next_nchain in Hne as [Hl Hnc].
  apply walk_prev_pchain in Hp as [_ Hpc].
  split; try done.
  - lia.
  - apply dseg_chains. done.
Qed.

(** ** From the representation to the observable lists *)

Lemma entries_eq s : entries s = entry_of (heap s) <$> nodes s.
Proof. done. Qed.

Lemma structural_split s k x :
  structural s → _store s !! k = Some x →
  ∃ A B, nodes s = A ++ x :: B ∧ Rep s (A ++ x :: B).
Proof.
  intros Hs Hk. apply structural_Rep in Hs.
  pose proof (Rep_lookup _ _ _ _ Hs Hk) as (A & B & HAB)%list_elem_of_split.
  exists A, B. split; [done|]. by rewrite <- HAB.
Qed.

Lemma filter_all {A} (P : A → Prop) `{∀ x, Decision (P x)} (l : list A) :
  (∀ x, x ∈ l → P x) → filter P l = l.
Proof.
  induction l as [|a l IH]; intros HP; [done|].
  rewrite filter_cons_True by (apply HP; left).
  f_equal. apply IH. intros x Hx. apply HP. by right.
Qed.

Lemma filter_ne_split (A : list nat) x B :
  NoDup (A ++ x :: B) → filter (λ l, l ≠ x) (A ++ x :: B) = A ++ B.
Proof.
  intros (HndA & HAB & [HxB HndB]%NoDup_cons)%NoDup_app.
  rewrite filter_app, filter_cons_False by (by intros ?).
  rewrite !filter_all; [done| |].
  - by intros l Hl ->.
  - intros l Hl ->. apply (HAB x Hl). left.
Qed.

Lemma Rep_key_inj s ls l m :
  Rep s ls → l ∈ ls → m ∈ ls → get_key (heap s) l = get_key (heap s) m → l = m.
Proof.
  intros H Hl Hm Hk.
  assert (_store s !! get_key (heap s) l = Some l) as H1 by by apply (rep_store _ _ H).
  assert (_store s !! get_key (heap s) l = Some m) as H2 by by apply (rep_store _ _ H).
  congruence.
Qed.

Lemma entries_filter_split s A x B :
  Rep s (A ++ x :: B) →
  filter (λ e, e.1 ≠ get_key (heap s) x) (entry_of (heap s) <$> (A ++ x :: B)) =
    entry_of (heap s) <$> (A ++ B).
Proof.
  intros H.
  assert (∀ l, l ∈ A ++ B → get_key (heap s) l ≠ get_key (heap s) x) as Hne.
  { intros l Hl Hk.
    assert (l = x) as ->.
    { eapply Rep_key_inj; [exact H| | |done].
      - revert Hl. rewrite !elem_of_app, elem_of_cons. tauto.
      - rewrite elem_of_app, elem_of_cons. tauto. }
    pose proof (rep_nodup _ _ H) as (_ & HAB & [HxB _]%NoDup_cons)%NoDup_app.
    apply elem_of_app in Hl as [Hl|Hl]; [|done]. apply (HAB x Hl). left. }
  rewrite !fmap_app, fmap_cons, filter_app, filter_cons_False by (simpl; by intros ?).
  rewrite !filter_all; [done| |].
  - intros e (l & -> & Hl)%list_elem_of_fmap. simpl.
    apply Hne, elem_of_app. by right.
  - intros e (l & -> & Hl)%list_elem_of_fmap. simpl.
    apply Hne, elem_of_app. by left.
Qed.

(** An entry moved to the most-recently-used end, its value possibly
    overwritten. *)
Lemma touch_abs s s' A x B v' :
  Rep s (A ++ x :: B) →
  Rep s' (A ++ B ++ [x]) →
  (∀ l, get_key (heap s') l = get_key (heap s) l) →
  (∀ l, l ≠ x → get_value (heap s') l = get_value (heap s) l) →
  get_value (heap s') x = v' →
  nodes s' = filter (λ l, l ≠ x) (nodes s) ++ [x] ∧
  entries s' =
    filter (λ e, e.1 ≠ get_key (heap s) x) (entries s) ++ [(get_key (heap s) x, v')].
Proof.
  intros H H' Hkey Hval Hx.
  rewrite !entries_eq, (Rep_nodes _ _ H), (Rep_nodes _ _ H').
  rewrite filter_ne_split by apply H. rewrite entries_filter_split by done.
  split; [by rewrite app_assoc|].
  rewrite (app_assoc A B [x]), fmap_app. f_equal.
  - apply list_fmap_ext. intros i l Hl. unfold entry_of. rewrite Hkey, Hval; [done|].
    intros ->. apply list_elem_of_lookup_2 in Hl.
    pose proof (rep_nodup _ _ H) as (_ & HAB & [HxB _]%NoDup_cons)%NoDup_app.
    apply elem_of_app in Hl as [Hl|Hl]; [|done]. apply (HAB x Hl). left.
  - simpl. unfold entry_of. by rewrite Hkey, Hx.
Qed.

(** An entry taken out. *)
Lemma drop_abs s s' A x B :
  Rep s (A ++ x :: B) →
  Rep s' (A ++ B) →
  (∀ l, get_key (heap s') l = get_key (heap s) l) →
  (∀ l, get_value (heap s') l = get_value (heap s) l) →
  nodes s' = filter (λ l, l ≠ x) (nodes s) ∧
  entries s' = filter (λ e, e.1 ≠ get_key (heap s) x) (entries s).
Proof.
  intros H H' Hkey Hval.
  rewrite !entries_eq, (Rep_nodes _ _ H), (Rep_nodes _ _ H').
  rewrite filter_ne_split by apply H. rewrite entries_filter_split by done.
  split; [done|].
  apply list_fmap_ext. intros i l Hl. unfold entry_of. by rewrite Hkey, Hval.
Qed.

(** ** The operations on the observable lists *)

Lemma moveToFront_hit s k x :
  structural s → _store s !! k = Some x →
  structural (_moveToFront x s) ∧
  nodes (_moveToFront x s) = filter (λ l, l ≠ x) (nodes s) ++ [x] ∧
  entries (_moveToFront x s) =
    filter (λ e, e.1 ≠ k) (entries s) ++ [(k, get_value (heap s) x)] ∧
  get_value (heap (_moveToFront x s)) x = get_value (heap s) x ∧
  (k, get_value (heap s) x) ∈ entries s ∧
  _size (_moveToFront x s) = _size s ∧
  _cacheLimit (_moveToFront x s) = _cacheLimit s ∧
  _store (_moveToFront x s) = _store s.
Proof.
  intros Hs Hk. destruct (structural_split _ _ _ Hs Hk) as (A & B & Hn & H).
  pose proof (Rep_lookup_key _ _ _ _ H Hk) as Hkx.
  destruct (moveToFront_Rep _ _ _ _ H) as (H' & Hlen & Hkey & Hval & Hsz & Hcap & Hst).
  destruct (touch_abs s (_moveToFront x s) A x B (get_value (heap s) x) H H')
    as [Hnodes Hentries]; try done.
  rewrite Hkx in Hentries.
  split_and!; try done.
  - by eapply Rep_structural.
  - rewrite entries_eq. apply list_elem_of_fmap. exists x. unfold entry_of.
    rewrite Hkx. split; [done|]. rewrite Hn, elem_of_app, elem_of_cons. tauto.
Qed.

Lemma put_hit s k v x :
  structural s → _store s !! k = Some x →
  structural (put k v s).2 ∧
  (put k v s).1 = JUndefined ∧
  nodes (put k v s).2 = filter (λ l, l ≠ x) (nodes s) ++ [x] ∧
  entries (put k v s).2 = filter (λ e, e.1 ≠ k) (entries s) ++ [(k, v)] ∧
  _size (put k v s).2 = _size s ∧
  _cacheLimit (put k v s).2 = _cacheLimit s ∧
  _store (put k v s).2 = _store s.
Proof.
  intros Hs Hk. destruct (structural_split _ _ _ Hs Hk) as (A & B & Hn & H).
  pose proof (Rep_lookup_key _ _ _ _ H Hk) as Hkx.
  assert (x < length (heap s))%nat as Hxa.
  { apply (Rep_allocated _ _ x H). rewrite elem_of_app, elem_of_cons. tauto. }
  unfold put. rewrite Hk. simpl.
  set (s0 := upd_heap (set_value x v) s).
  pose proof (set_value_Rep _ _ x v H) as H0. fold s0 in H0.
  destruct (moveToFront_Rep _ _ _ _ H0) as (H' & Hlen & Hkey & Hval & Hsz & Hcap & Hst).
  destruct (touch_abs s (_moveToFront x s0) A x B v H H') as [Hnodes Hentries].
  - intros l. rewrite Hkey. unfold s0. simpl. by heap_simpl.
  - intros l Hl. rewrite Hval. unfold s0. simpl.
    unfold get_value, set_value. by rewrite lookup_set_ne.
  - rewrite Hval. unfold s0. simpl. heap_simpl. by rewrite decide_True.
  - rewrite Hkx in Hentries. split_and!; try done. by eapply Rep_structural.
Qed.

Lemma put_new_fits s k v :
  structural s → _store s !! k = None →
  (_size s < _cacheLimit s)%Z →
  structural (put k v s).2 ∧
  (put k v s).1 = JUndefined ∧
  nodes (put k v s).2 = nodes s ++ [length (heap s)] ∧
  entries (put k v s).2 = entries s ++ [(k, v)] ∧
  _size (put k v s).2 = (_size s + 1)%Z ∧
  _cacheLimit (put k v s).2 = _cacheLimit s ∧
  _store (put k v s).2 = <[k := length (heap s)]> (_store s).
Proof.
  intros Hs Hk Hfit. pose proof (structural_Rep _ Hs) as H.
  rewrite put_miss_eq by done.
  destruct (Z.ltb_spec (_cacheLimit s) (_size s + 1)); [lia|]. simpl.
  destruct (link_new_Rep k v s _ H Hk) as (H' & Hlen & Hkey & Hval).
  split_and!; try done.
  - by eapply Rep_structural.
  - by rewrite (Rep_nodes _ _ H').
  - rewrite !entries_eq, (Rep_nodes _ _ H'), fmap_app. simpl. f_equal.
    + apply list_fmap_ext. intros i l Hl%list_elem_of_lookup_2.
      pose proof (Rep_allocated _ _ l H Hl).
      unfold entry_of. rewrite Hkey, Hval. by rewrite !decide_False by lia.
    + unfold entry_of. rewrite Hkey, Hval. by rewrite !decide_True.
Qed.

Lemma put_new_evicts s k v :
  structural s → _store s !! k = None →
  (_cacheLimit s ≤ _size s)%Z →
  ∃ t kt vt,
    head (nodes s ++ [length (heap s)]) = Some t ∧
    head (entries s ++ [(k, v)]) = Some (kt, vt) ∧
    structural (put k v s).2 ∧
    (put k v s).1 = JRef t ∧
    get_key (heap (put k v s).2) t = kt ∧
    get_value (heap (put k v s).2) t = vt ∧
    nodes (put k v s).2 = tail (nodes s ++ [length (heap s)]) ∧
    entries (put k v s).2 = tail (entries s ++ [(k, v)]) ∧
    _size (put k v s).2 = _size s ∧
    _cacheLimit (put k v s).2 = _cacheLimit s ∧
    _store (put k v s).2 = delete kt (<[k := length (heap s)]> (_store s)).
Proof.
  intros Hs Hk Hfull. pose proof (structural_Rep _ Hs) as H.
  rewrite put_miss_eq by done.
  destruct (Z.ltb_spec (_cacheLimit s) (_size s + 1)); [|lia].
  destruct (link_new_Rep k v s _ H Hk) as (H' & Hlen & Hkey & Hval).
  assert (entry_of (heap (link_new k v s)) <$> (nodes s ++ [length (heap s)])
          = entries s ++ [(k, v)]) as Hent.
  { rewrite entries_eq, fmap_app. simpl. f_equal.
    + apply list_fmap_ext. intros i l Hl%list_elem_of_lookup_2.
      pose proof (Rep_allocated _ _ l H Hl).
      unfold entry_of. rewrite Hkey, Hval. by rewrite !decide_False by lia.
    + unfold entry_of. rewrite Hkey, Hval. by rewrite !decide_True. }
  destruct (nodes s ++ [length (heap s)]) as [|t B] eqn:E.
  { by destruct (nodes s). }
  destruct (purge_Rep _ _ _ H') as (Hres & HB & Hlen' & Hkey' & Hval' & _ & _ & Hsz & Hcap & Hst).
  rewrite <- Hent.
  exists t, (get_key (heap (link_new k v s)) t), (get_value (heap (link_new k v s)) t).
  split_and!; try done.
  - by eapply Rep_structural.
  - by rewrite (Rep_nodes _ _ HB).
  - rewrite entries_eq, (Rep_nodes _ _ HB). simpl.
    apply list_fmap_ext. intros i l _. unfold entry_of. by rewrite Hkey', Hval'.
  - rewrite Hsz. simpl. lia.
Qed.

Lemma getEntry_miss s k : _store s !! k = None → _getEntry k s = (None, s).
Proof. intros Hk. unfold _getEntry. by rewrite Hk. Qed.

Lemma getEntry_hit s k x :
  _store s !! k = Some x → _getEntry k s = (Some x, _moveToFront x s).
Proof. intros Hk. unfold _getEntry. by rewrite Hk. Qed.

Lemma get_miss s k : _store s !! k = None → get k s = (JUndefined, s).
Proof. intros Hk. unfold get. by rewrite getEntry_miss. Qed.

Lemma get_hit s k x :
  structural s → _store s !! k = Some x →
  structural (get k s).2 ∧
  (get k s).1 = get_value (heap s) x ∧
  (k, (get k s).1) ∈ entries s ∧
  nodes (get k s).2 = filter (λ l, l ≠ x) (nodes s) ++ [x] ∧
  entries (get k s).2 =
    filter (λ e, e.1 ≠ k) (entries s) ++ [(k, (get k s).1)] ∧
  _size (get k s).2 = _size s ∧
  _cacheLimit (get k s).2 = _cacheLimit s ∧
  _store (get k s).2 = _store s.
Proof.
  intros Hs Hk. unfold get. rewrite (getEntry_hit _ _ _ Hk). simpl.
  destruct (moveToFront_hit _ _ _ Hs Hk) as (? & ? & ? & -> & ? & ? & ? & ?).
  done.
Qed.

Lemma set_miss s k v : _store s !! k = None → set k v s = (JUndefined, s).
Proof. intros Hk. unfold set. by rewrite getEntry_miss. Qed.

Lemma set_hit s k v x :
  structural s → _store s !! k = Some x →
  structural (set k v s).2 ∧
  (set k v s).1 = get_value (heap s) x ∧
  (k, (set k v s).1) ∈ entries s ∧
  nodes (set k v s).2 = filter (λ l, l ≠ x) (nodes s) ++ [x] ∧
  entries (set k v s).2 = filter (λ e, e.1 ≠ k) (entries s) ++ [(k, v)] ∧
  _size (set k v s).2 = _size s ∧
  _cacheLimit (set k v s).2 = _cacheLimit s ∧
  _store (set k v s).2 = _store s.
Proof.
  intros Hs Hk. destruct (structural_split _ _ _ Hs Hk) as (A & B & Hn & H).
  pose proof (Rep_lookup_key _ _ _ _ H Hk) as Hkx.
  assert (x < length (heap s))%nat as Hxa.
  { apply (Rep_allocated _ _ x H). rewrite elem_of_app, elem_of_cons. tauto. }
  unfold set. rewrite (getEntry_hit _ _ _ Hk). simpl.
  destruct (moveToFront_Rep _ _ _ _ H) as (H1 & Hlen & Hkey & Hval & Hsz & Hcap & Hst).
  pose proof (set_value_Rep _ _ x v H1) as H'.
  destruct (touch_abs s (upd_heap (set_value x v) (_moveToFront x s)) A x B v H H')
    as [Hnodes Hentries]; simpl.
  - intros l. heap_simpl. apply Hkey.
  - intros l Hl. rewrite <- Hval. unfold get_value, set_value. by rewrite lookup_set_ne.
  - heap_simpl. by rewrite decide_True.
  - rewrite Hkx in Hentries. rewrite Hval. split_and!; try done.
    + by eapply Rep_structural.
    + rewrite entries_eq. apply list_elem_of_fmap. exists x. unfold entry_of.
      rewrite Hkx. split; [done|]. rewrite Hn, elem_of_app, elem_of_cons. tauto.
Qed.

Lemma remove_hit s k x :
  structural s → _store s !! k = Some x →
  structural (remove k s).2 ∧
  (remove k s).1 = get_value (heap s) x ∧
  (k, (remove k s).1) ∈ entries s ∧
  nodes (remove k s).2 = filter (λ l, l ≠ x) (nodes s) ∧
  entries (remove k s).2 = filter (λ e, e.1 ≠ k) (entries s) ∧
  _size (remove k s).2 = (_size s - 1)%Z ∧
  _cacheLimit (remove k s).2 = _cacheLimit s ∧
  _store (remove k s).2 = delete k (_store s).
Proof.
  intros Hs Hk. destruct (structural_split _ _ _ Hs Hk) as (A & B & Hn & H).
  pose proof (Rep_lookup_key _ _ _ _ H Hk) as Hkx.
  destruct (remove_Rep _ _ _ _ _ H Hk)
    as (Hres & H' & Hlen & Hkey & Hval & Hsz & Hcap & Hst).
  destruct (drop_abs s (remove k s).2 A x B H H') as [Hnodes Hentries]; try done.
  rewrite Hkx in Hentries. rewrite Hres. split_and!; try done.
  - by eapply Rep_structural.
  - rewrite entries_eq. apply list_elem_of_fmap. exists x. unfold entry_of.
    rewrite Hkx. split; [done|]. rewrite Hn, elem_of_app, elem_of_cons. tauto.
Qed.

Lemma purge_nonempty s t :
  structural s → _last s = Some t →
  structural (purge s).2 ∧
  (purge s).1 = JRef t ∧
  head (nodes s) = Some t ∧
  head (entries s) =
    Some (get_key (heap (purge s).2) t, get_value (heap (purge s).2) t) ∧
  nodes (purge s).2 = tail (nodes s) ∧
  entries (purge s).2 = tail (entries s) ∧
  _size (purge s).2 = (_size s - 1)%Z ∧
  _cacheLimit (purge s).2 = _cacheLimit s ∧
  _store (purge s).2 = delete (get_key (heap s) t) (_store s).
Proof.
  intros Hs Ht. pose proof (structural_Rep _ Hs) as H.
  rewrite entries_eq.
  destruct (nodes s) as [|t' B] eqn:E.
  { rewrite (rep_last _ _ H) in Ht. done. }
  assert (t' = t) as ->.
  { rewrite (rep_last _ _ H) in Ht. by simplify_eq/=. }
  destruct (purge_Rep _ _ _ H) as (Hres & HB & Hlen' & Hkey' & Hval' & _ & _ & Hsz & Hcap & Hst).
  split_and!; try done.
  - by eapply Rep_structural.
  - simpl. unfold entry_of. by rewrite Hkey', Hval'.
  - by rewrite (Rep_nodes _ _ HB).
  - rewrite entries_eq, (Rep_nodes _ _ HB). simpl.
    apply list_fmap_ext. intros i l _. unfold entry_of. by rewrite Hkey', Hval'.
Qed.

Lemma purge_none s : _last s = None → purge s = (JUndefined, s).
Proof. intros H. unfold purge. by rewrite H. Qed.

Lemma removeAll_structural s : structural (removeAll s).2.
Proof.
  apply (Rep_structural _ []). split; simpl; try done; [constructor|].
  intros k l. rewrite lookup_empty. split; [done|]. intros [Hl _]. inversion Hl.
Qed.

(** Every public operation keeps the invariant and the limit; the size
    grows by one at most, and only below the limit. *)
Lemma exec_facts o s :
  structural s →
  structural (exec o s) ∧
  _cacheLimit (exec o s) = _cacheLimit s ∧
  ((_size (exec o s) ≤ _size s)%Z ∨
   (_size (exec o s) = _size s + 1 ∧ _size s < _cacheLimit s)%Z).
Proof.
  intros Hs. destruct o as [k v| |k|k|k v|k| | | |]; simpl;
    try (split_and!; [done|done|left; lia]).
  - destruct (_store s !! k) as [x|] eqn:Hk.
    + destruct (put_hit s k v x Hs Hk) as (? & _ & _ & _ & -> & ? & _).
      split_and!; [done|done|left; lia].
    + destruct (Z.lt_ge_cases (_size s) (_cacheLimit s)) as [Hlt|Hge].
      * destruct (put_new_fits s k v Hs Hk Hlt) as (? & _ & _ & _ & -> & ? & _).
        split_and!; [done|done|right; lia].
      * destruct (put_new_evicts s k v Hs Hk Hge)
          as (? & ? & ? & _ & _ & ? & _ & _ & _ & _ & _ & -> & ? & _).
        split_and!; [done|done|left; lia].
  - destruct (_last s) as [t|] eqn:Ht.
    + destruct (purge_nonempty s t Hs Ht) as (? & _ & _ & _ & _ & _ & -> & ? & _).
      split_and!; [done|done|left; lia].
    + rewrite purge_none by done. split_and!; [done|done|left; simpl; lia].
  - destruct (_store s !! k) as [x|] eqn:Hk.
    + destruct (get_hit s k x Hs Hk) as (? & _ & _ & _ & _ & -> & ? & _).
      split_and!; [done|done|left; lia].
    + rewrite get_miss by done. split_and!; [done|done|left; simpl; lia].
  - destruct (_store s !! k) as [x|] eqn:Hk.
    + destruct (set_hit s k v x Hs Hk) as (? & _ & _ & _ & _ & -> & ? & _).
      split_and!; [done|done|left; lia].
    + rewrite set_miss by done. split_and!; [done|done|left; simpl; lia].
  - destruct (_store s !! k) as [x|] eqn:Hk.
    + destruct (remove_hit s k x Hs Hk) as (? & _ & _ & _ & _ & -> & ? & _).
      split_and!; [done|done|left; lia].
    + rewrite remove_miss by done. split_and!; [done|done|left; simpl; lia].
  - split_and!; [apply removeAll_structural|done|left]. by apply st_size.
Qed.

Lemma exec_structural o s : structural s → structural (exec o s).
Proof. intros Hs. by destruct (exec_facts o s Hs). Qed.

Lemma exec_bounded o s :
  structural s → bounded s →
  bounded (exec o s) ∧ _cacheLimit (exec o s) = _cacheLimit s.
Proof.
  intros Hs [Hcap Hb]. destruct (exec_facts o s Hs) as (Hs' & Hc & Hsz).
  pose proof (st_size _ Hs'). unfold bounded. rewrite Hc. split; [|done]. lia.
Qed.

Lemma run_invariant cap ops :
  (0 < cap)%Z →
  structural (run ops (newInstance cap)) ∧
  bounded (run ops (newInstance cap)) ∧
  _cacheLimit (run ops (newInstance cap)) = cap.
Proof.
  intros Hcap. unfold run.
  induction ops as [|o ops IH] using rev_ind.
  - simpl. split_and!; try done.
    + apply (Rep_structural _ []), Rep_newInstance.
    + unfold bounded. simpl. lia.
  - rewrite foldl_app. simpl. destruct IH as (Hs & Hb & Hc).
    destruct (exec_bounded o _ Hs Hb) as [Hb' Hc'].
    split_and!; [by apply exec_structural|done|congruence].
Qed.

(** ** The snapshot *)

Lemma array_store_hole {A} (pre : list (option A)) r x :
  array_store (pre ++ replicate (S r) None) (length pre) x =
    (pre ++ [Some x]) ++ replicate r None.
Proof.
  unfold array_store. rewrite decide_True.
  - rewrite insert_app_r_alt by lia. rewrite Nat.sub_diag. simpl.
    by rewrite <- app_assoc.
  - rewrite length_app, length_replicate. lia.
Qed.

Lemma toJSON_loop_chain h ls fuel pre r :
  nchain h ls None →
  (length ls ≤ fuel)%nat → (length ls ≤ r)%nat →
  toJSON_loop fuel h (head ls) (length pre) (pre ++ replicate r None) =
    Some (pre ++ (json_of ∘ entry_of h <$> ls) ++ replicate (r - length ls) None).
Proof.
  revert fuel pre r. induction ls as [|a ls IH]; intros fuel pre r Hc Hf Hr.
  - simpl. destruct fuel; simpl; by rewrite Nat.sub_0_r.
  - destruct Hc as [Ha Hc]. simpl in Hf, Hr.
    destruct fuel as [|fuel]; [lia|]. destruct r as [|r]; [lia|].
    cbn [head toJSON_loop]. rewrite array_store_hole.
    replace (S (length pre)) with (length (pre ++ [Some (mkJSONEntry (get_key h a) (get_value h a))])).
    2:{ rewrite length_app. simpl. lia. }
    rewrite Ha. replace (hd_or ls None) with (head ls) by by destruct ls.
    rewrite IH by (done || lia). simpl. by rewrite <- app_assoc.
Qed.

Lemma toJSON_structural s fuel :
  structural s → (Z.to_nat (_size s) ≤ fuel)%nat →
  toJSON fuel s = (Some (json_of <$> entries s), s).
Proof.
  intros Hs Hfuel. pose proof (structural_Rep _ Hs) as H.
  pose proof (rep_links _ _ H) as (_ & Hnc & _)%dseg_chains.
  unfold toJSON. f_equal.
  rewrite (rep_last _ _ H), (rep_size _ _ H), Nat2Z.id.
  rewrite (rep_size _ _ H), Nat2Z.id in Hfuel.
  pose proof (toJSON_loop_chain (heap s) (nodes s) fuel [] (length (nodes s)) Hnc Hfuel)
    as E.
  simpl in E. rewrite E by done.
  rewrite Nat.sub_diag. simpl. rewrite app_nil_r.
  by rewrite entries_eq, list_fmap_compose.
Qed.

(** ** Keys of the entries and of the index *)

Lemma structural_keys s k :
  structural s → is_Some (_store s !! k) ↔ k ∈ (entries s).*1.
Proof.
  intros Hs. rewrite entries_eq, <- list_fmap_compose. split.
  - intros [l Hl]. apply (st_index _ Hs) in Hl as [Hl <-].
    apply list_elem_of_fmap. by exists l.
  - intros (l & -> & Hl)%list_elem_of_fmap. exists l. by apply (st_index _ Hs).
Qed.

Lemma structural_keys_NoDup s : structural s → NoDup (entries s).*1.
Proof.
  intros Hs. pose proof (structural_Rep _ Hs) as H.
  rewrite entries_eq, <- list_fmap_compose.
  apply NoDup_fmap_2_strong; [|apply H].
  intros l m Hl Hm Hk. by eapply Rep_key_inj.
Qed.

Lemma recency_entries s : recency s = reverse (entries s).*1.
Proof. unfold recency. by rewrite entries_eq, <- list_fmap_compose. Qed.

(** ** Replaying a snapshot *)

Lemma rebuild_from_cons s k v snapshot :
  rebuild_from s (json_of (k, v) :: snapshot) = rebuild_from (put k v s).2 snapshot.
Proof. done. Qed.

Lemma rebuild_from_new s es :
  structural s →
  NoDup es.*1 →
  (∀ k, k ∈ es.*1 → _store s !! k = None) →
  (_size s + Z.of_nat (length es) ≤ _cacheLimit s)%Z →
  structural (rebuild_from s (json_of <$> es)) ∧
  entries (rebuild_from s (json_of <$> es)) = entries s ++ es ∧
  _cacheLimit (rebuild_from s (json_of <$> es)) = _cacheLimit s.
Proof.
  revert s. induction es as [|[k v] es IH]; intros s Hs Hnd Hnew Hfit.
  - simpl. by rewrite app_nil_r.
  - rewrite fmap_cons, rebuild_from_cons.
    rewrite fmap_cons in Hnd, Hnew. rewrite length_cons in Hfit. simpl in Hnd, Hnew.
    apply NoDup_cons in Hnd as [Hk Hnd].
    assert (_store s !! k = None) as Hsk by (apply Hnew; left).
    destruct (put_new_fits s k v Hs Hsk) as (Hs' & _ & _ & He & Hsz & Hcap & Hst); [lia|].
    destruct (IH (put k v s).2) as (? & -> & ->); try done.
    + intros k' Hk'. rewrite Hst, lookup_insert_ne; [apply Hnew; by right|].
      by intros ->.
    + rewrite Hsz, Hcap. lia.
    + rewrite He, <- app_assoc. done.
Qed.

(** ** Values stored under a key *)

Lemma entries_lookup s k v :
  structural s → (k, v) ∈ entries s →
  ∃ x, _store s !! k = Some x ∧ get_value (heap s) x = v.
Proof.
  intros Hs. rewrite entries_eq. intros (x & [= -> ->] & Hx)%list_elem_of_fmap.
  exists x. split; [|done]. by apply (st_index _ Hs).
Qed.

Lemma structural_nonempty s :
  structural s → (0 < _size s)%Z → ∃ t B, nodes s = t :: B ∧ _last s = Some t.
Proof.
  intros Hs Hpos. pose proof (structural_Rep _ Hs) as H.
  pose proof (rep_size _ _ H) as Hsz. pose proof (rep_last _ _ H) as Hl.
  destruct (nodes s) as [|t B]; simpl in *; [lia|]. eauto.
Qed.

(** On a cache within a positive limit, [put] leaves its key at the
    most-recently-used end. *)
Lemma put_last s k v :
  structural s → bounded s →
  structural (put k v s).2 ∧ last (entries (put k v s).2) = Some (k, v).
Proof.
  intros Hs [Hcap Hb]. destruct (_store s !! k) as [x|] eqn:Hk.
  - destruct (put_hit s k v x Hs Hk) as (? & _ & _ & -> & _).
    by rewrite last_snoc.
  - destruct (Z.lt_ge_cases (_size s) (_cacheLimit s)) as [Hlt|Hge].
    + destruct (put_new_fits s k v Hs Hk Hlt) as (? & _ & _ & -> & _).
      by rewrite last_snoc.
    + destruct (put_new_evicts s k v Hs Hk Hge)
        as (t & kt & vt & _ & _ & ? & _ & _ & _ & _ & -> & _).
      split; [done|].
      destruct (structural_nonempty s Hs) as (t' & B & Hn & _); [lia|].
      rewrite entries_eq, Hn. simpl. by rewrite last_snoc.
Qed.

(** The example cache satisfies the invariant, field by field, by
    evaluation. *)
Lemma example_cache_structural : structural example_cache.
Proof.
  assert (nodes example_cache = [0; 1; 2]%nat) as Hn by reflexivity.
  assert (_store example_cache =
          <["c"%string := 2%nat]> (<["b"%string := 1%nat]> (<["a"%string := 0%nat]> ∅)))
    as Hst by (vm_compute; reflexivity).
  split; rewrite ?Hn.
  - vm_compute. discriminate.
  - reflexivity.
  - reflexivity.
  - apply (bool_decide_unpack _). vm_compute. exact I.
  - reflexivity.
  - reflexivity.
  - intros l Hl. change (length (heap example_cache)) with 3%nat.
    repeat (apply elem_of_cons in Hl as [->|Hl]; [lia|]). inversion Hl.
  - intros l m Hl.
    repeat (apply elem_of_cons in Hl as [->|Hl];
            [split; intros Hm; vm_compute in Hm; simplify_eq; reflexivity|]).
    inversion Hl.
  - intros k l. rewrite Hst. split.
    + intros Hk.
      repeat (apply lookup_insert_Some in Hk as [[<- <-]|[_ Hk]];
              [split; [|reflexivity]; repeat constructor|]).
      by rewrite lookup_empty in Hk.
    + intros [Hl <-].
      repeat (apply elem_of_cons in Hl as [->|Hl]; [by vm_compute|]). inversion Hl.
  - split; [by vm_compute|]. intros [Hf _]. by vm_compute in Hf.
Qed.

(** ** Properties of the operations, for keys within the scope *)

Lemma example_ops_plain : Forall plain_op example_ops.
Proof. repeat constructor. Qed.

(** X17 (capacity bound, for keys that [Object.prototype] does not name).
    For a cache built with a positive limit, after any sequence of public
    calls on such keys the size lies between 0 and the limit.  When the size
    equals the limit, a [put] of such a key that is not in the cache returns
    the entry at the tail, removes exactly that entry (its node leaves the
    list and its key leaves the index), appends the new entry at the head
    end, and leaves the size at the limit. *)
Theorem capacity_bound (cap : Z) (ops : list op) :
  (0 < cap)%Z →
  Forall plain_op ops →
  let s := run ops (newInstance cap) in
  (0 ≤ _size s ≤ cap)%Z ∧
  ∀ k v, plain_key k → _size s = cap → _store s !! k = None →
    ∃ t, _last s = Some t ∧ head (nodes s) = Some t ∧
      (put k v s).1 = JRef t ∧
      nodes (put k v s).2 = tail (nodes s) ++ [length (heap s)] ∧
      entries (put k v s).2 = tail (entries s) ++ [(k, v)] ∧
      _size (put k v s).2 = cap ∧
      _store (put k v s).2 =
        delete (get_key (heap s) t) (<[k := length (heap s)]> (_store s)).
Proof.
  intros Hcap _ s. destruct (run_invariant cap ops Hcap) as (Hs & [_ Hb] & Hc).
  fold s in Hs, Hb, Hc. rewrite Hc in Hb. split; [done|].
  intros k v _ Hfull Hk.
  destruct (structural_nonempty s Hs) as (t & B & Hn & Hl); [lia|].
  destruct (put_new_evicts s k v Hs Hk)
    as (t' & kt & vt & Ht & Hkt & _ & Hres & _ & _ & Hnodes & Hent & Hsz & _ & Hst);
    [lia|].
  assert (entries s = entry_of (heap s) t :: (entry_of (heap s) <$> B)) as He.
  { by rewrite entries_eq, Hn. }
  rewrite He in Hkt, Hent |- *. rewrite Hn in Ht, Hnodes |- *.
  simpl in Ht, Hkt, Hnodes, Hent |- *. unfold entry_of in Hkt. simplify_eq.
  exists t'. split_and!; try done. lia.
Qed.

Lemma capacity_bound_witness :
  (0 < 3)%Z ∧ Forall plain_op example_ops ∧ plain_key "d" ∧
  (0 ≤ _size example_cache ≤ 3)%Z ∧
  (put "d" (JNum 4) example_cache).1 = JRef 0.
Proof.
  split; [lia|]. split; [repeat constructor|]. split; [reflexivity|].
  unfold example_cache.
  destruct (capacity_bound 3 example_ops) as [Hb Hev]; [lia|repeat constructor|].
  split; [exact Hb|].
  destruct (Hev "d" (JNum 4)) as (t & Hl & _ & Hres & _);
    [reflexivity|reflexivity|reflexivity|].
  rewrite Hres. f_equal. vm_compute in Hl. congruence.
Defined.

(** X18 (structural invariant, for keys that [Object.prototype] does not
    name).  A fresh cache has, and every public call ([put], [purge], [get],
    [find], [set], [remove] on such a key, [removeAll], and the read-only
    [toJSON], [toString], [keys]) preserves, the following:
    the recency list is an acyclic doubly linked chain of exactly [_size]
    nodes, reached from [_last] along [next] up to [_first] and from [_first]
    along [prev] back to [_last]; [prev] and [next] mirror each other; the
    index holds exactly the keys of these nodes; and the size is 0 exactly
    when both ends are absent. *)
Theorem structural_preserved (cap : Z) (o : op) (s : LRUCache) :
  structural (newInstance cap) ∧
  (plain_op o → structural s → structural (exec o s)).
Proof.
  split.
  - apply (Rep_structural _ []), Rep_newInstance.
  - intros _. apply exec_structural.
Qed.

Lemma structural_preserved_witness :
  plain_op (Remove "b") ∧ structural example_cache ∧
  structural (exec (Remove "b") example_cache).
Proof.
  split; [reflexivity|]. split; [apply example_cache_structural|].
  apply (structural_preserved 3 (Remove "b") example_cache);
    [reflexivity|apply example_cache_structural].
Defined.

(** X19 ([put], for keys that [Object.prototype] does not name).  On a key
    that is in the cache, [put] returns [undefined],
    keeps the node, moves it to the head end with the new value, and leaves
    the size and the index as they were.  On a new key it creates a node at
    the head end and adds one to the size; if the size then exceeds the
    limit it removes the node at the tail, returns that entry object
    (carrying its key and value) and the size is back where it was;
    otherwise it returns [undefined]. *)
Theorem put_spec (s : LRUCache) (k : string) (v : jsval) :
  plain_key k →
  structural s →
  match _store s !! k with
  | Some x =>
      (put k v s).1 = JUndefined ∧
      nodes (put k v s).2 = filter (λ l, l ≠ x) (nodes s) ++ [x] ∧
      entries (put k v s).2 = filter (λ e, e.1 ≠ k) (entries s) ++ [(k, v)] ∧
      _size (put k v s).2 = _size s ∧
      _store (put k v s).2 = _store s
  | None =>
      let x := length (heap s) in
      if (_cacheLimit s <? _size s + 1)%Z then
        ∃ t kt vt,
          head (nodes s ++ [x]) = Some t ∧
          head (entries s ++ [(k, v)]) = Some (kt, vt) ∧
          (put k v s).1 = JRef t ∧
          get_key (heap (put k v s).2) t = kt ∧
          get_value (heap (put k v s).2) t = vt ∧
          nodes (put k v s).2 = tail (nodes s ++ [x]) ∧
          entries (put k v s).2 = tail (entries s ++ [(k, v)]) ∧
          _size (put k v s).2 = _size s ∧
          _store (put k v s).2 = delete kt (<[k := x]> (_store s))
      else
        (put k v s).1 = JUndefined ∧
        nodes (put k v s).2 = nodes s ++ [x] ∧
        entries (put k v s).2 = entries s ++ [(k, v)] ∧
        _size (put k v s).2 = (_size s + 1)%Z ∧
        _store (put k v s).2 = <[k := x]> (_store s)
  end.
Proof.
  intros _ Hs. destruct (_store s !! k) as [x|] eqn:Hk.
  - destruct (put_hit s k v x Hs Hk) as (_ & ? & ? & ? & ? & _ & ?). done.
  - simpl. destruct (Z.ltb_spec (_cacheLimit s) (_size s + 1)) as [Hlt|Hge].
    + destruct (put_new_evicts s k v Hs Hk)
        as (t & kt & vt & ? & ? & _ & ? & ? & ? & ? & ? & ? & _ & ?); [lia|].
      exists t, kt, vt. done.
    + destruct (put_new_fits s k v Hs Hk) as (_ & ? & ? & ? & ? & _ & ?); [lia|].
      done.
Qed.

Lemma put_spec_witness :
  plain_key "d" ∧ structural example_cache ∧
  (put "d" (JNum 4) example_cache).1 = JRef 0 ∧
  entries (put "d" (JNum 4) example_cache).2 =
    [("b", JNum 2); ("c", JNum 3); ("d", JNum 4)].
Proof.
  split; [reflexivity|]. split; [apply example_cache_structural|].
  pose proof (put_spec example_cache "d" (JNum 4) eq_refl example_cache_structural) as H.
  change (_store example_cache !! "d") with (@None nat) in H.
  change (_cacheLimit example_cache <? _size example_cache + 1)%Z with true in H.
  cbv beta iota zeta in H.
  destruct H as (t & kt & vt & Ht & _ & Hres & _ & _ & _ & Hent & _).
  vm_compute in Ht. injection Ht as <-.
  split; [exact Hres|]. rewrite Hent. reflexivity.
Defined.

(** X20 ([get], for keys that [Object.prototype] does not name).  [get]
    returns the value stored under the key when the key is in the cache, and
    [undefined] (leaving the cache as it is) otherwise; on a hit the node
    moves to the head end.  After [put] of three distinct such keys a, b, c
    into a fresh cache of limit at least 3 the keys read c, b, a from head
    to tail, and after [get] of a they read a, c, b. *)
Theorem get_spec (s : LRUCache) (k : string)
    (cap : Z) (a b c : string) (va vb vc : jsval) :
  plain_key k → plain_key a → plain_key b → plain_key c →
  structural s →
  (3 ≤ cap)%Z → a ≠ b → a ≠ c → b ≠ c →
  match _store s !! k with
  | Some x =>
      (get k s).1 = get_value (heap s) x ∧
      (k, (get k s).1) ∈ entries s ∧
      nodes (get k s).2 = filter (λ l, l ≠ x) (nodes s) ++ [x] ∧
      entries (get k s).2 =
        filter (λ e, e.1 ≠ k) (entries s) ++ [(k, (get k s).1)] ∧
      head (recency (get k s).2) = Some k
  | None => get k s = (JUndefined, s)
  end ∧
  let s3 := run [Put a va; Put b vb; Put c vc] (newInstance cap) in
  recency s3 = [c; b; a] ∧ recency (get a s3).2 = [a; c; b].
Proof.
  intros _ _ _ _ Hs Hcap Hab Hac Hbc. split.
  - destruct (_store s !! k) as [x|] eqn:Hk; [|by apply get_miss].
    destruct (get_hit s k x Hs Hk) as (_ & ? & ? & ? & He & _).
    split_and!; try done.
    rewrite recency_entries, He, fmap_app, reverse_app. done.
  - pose proof (Rep_structural _ _ (Rep_newInstance cap)) as H0.
    set (s0 := newInstance cap) in *.
    assert (∀ k, _store s0 !! k = None) as Hst0 by (intros ?; apply lookup_empty).
    destruct (put_new_fits s0 a va H0 (Hst0 a)) as (H1 & _ & _ & He1 & Hsz1 & Hc1 & Hst1);
      [simpl; lia|].
    set (s1 := (put a va s0).2) in *.
    assert (_store s1 !! b = None) as Hb1.
    { rewrite Hst1, lookup_insert_ne by done. apply Hst0. }
    destruct (put_new_fits s1 b vb H1 Hb1) as (H2 & _ & _ & He2 & Hsz2 & Hc2 & Hst2);
      [rewrite Hsz1, Hc1; simpl; lia|].
    set (s2 := (put b vb s1).2) in *.
    assert (_store s2 !! c = None) as Hc2'.
    { rewrite Hst2, lookup_insert_ne by done.
      rewrite Hst1, lookup_insert_ne by done. apply Hst0. }
    destruct (put_new_fits s2 c vc H2 Hc2') as (H3 & _ & _ & He3 & Hsz3 & Hc3 & Hst3);
      [rewrite Hsz2, Hc2, Hsz1, Hc1; simpl; lia|].
    change (run [Put a va; Put b vb; Put c vc] s0) with (put c vc s2).2.
    set (s3 := (put c vc s2).2) in *.
    assert (entries s3 = [(a, va); (b, vb); (c, vc)]) as He.
    { rewrite He3, He2, He1. done. }
    split; [by rewrite recency_entries, He|].
    assert (is_Some (_store s3 !! a)) as [x Hx].
    { apply structural_keys; [done|]. rewrite He. left. }
    destruct (get_hit s3 a x H3 Hx) as (_ & _ & _ & _ & He' & _).
    rewrite recency_entries, He', He.
    rewrite filter_cons_False by (simpl; by intros ?).
    rewrite !filter_cons_True by (simpl; congruence).
    done.
Qed.

Lemma get_spec_witness :
  plain_key "a" ∧ plain_key "b" ∧ plain_key "c" ∧ structural example_cache ∧
  (get "a" example_cache).1 = JNum 1 ∧
  recency (get "a" (run [Put "a" JNull; Put "b" JNull; Put "c" JNull] (newInstance 3))).2 =
    ["a"; "c"; "b"]%string.
Proof.
  do 3 (split; [reflexivity|]). split; [apply example_cache_structural|].
  destruct (get_spec example_cache "a" 3 "a" "b" "c" JNull JNull JNull
              eq_refl eq_refl eq_refl eq_refl
              example_cache_structural) as [Hget [_ Hrec]];
    [lia|done|done|done|].
  split; [|exact Hrec].
  change (_store example_cache !! "a") with (Some 0%nat) in Hget.
  cbv beta iota in Hget. destruct Hget as [Hget _]. rewrite Hget. reflexivity.
Defined.

(** C5 as stated fails: for a key that is in the cache, [find] does not
    return the value stored under the key.  In the cache holding ("a", 1),
    [find "a"] yields a reference to the entry object, not the number 1. *)
Lemma find_not_value :
  ("a"%string, JNum 1) ∈ entries single_cache ∧
  (find "a" single_cache).1 = JRef 0 ∧
  (find "a" single_cache).1 ≠ JNum 1.
Proof.
  split_and!.
  - change (entries single_cache) with [("a"%string, JNum 1)]. left.
  - reflexivity.
  - change (find "a" single_cache).1 with (JRef 0). discriminate.
Qed.

(** C5, amended ([find]).  For a key that [Object.prototype] does not
    name: [find] returns the entry object held for the key (a node of the
    recency list whose key field is the key and whose value field is the
    value stored under it) when the key is in the cache, and [undefined]
    otherwise; any number of calls leaves the whole cache state, recency
    order included, as it was. *)
Theorem find_spec (s : LRUCache) (k : string) (n : nat) :
  plain_key k →
  structural s →
  match _store s !! k with
  | Some x =>
      (find k s).1 = JRef x ∧ x ∈ nodes s ∧
      get_key (heap s) x = k ∧ (k, get_value (heap s) x) ∈ entries s
  | None => (find k s).1 = JUndefined ∧ k ∉ recency s
  end ∧
  Nat.iter n (λ s', (find k s').2) s = s.
Proof.
  intros _ Hs. split.
  - unfold find. simpl. destruct (_store s !! k) as [x|] eqn:Hk.
    + apply (st_index _ Hs) in Hk as [Hx Hkx]. split_and!; try done.
      rewrite entries_eq. apply list_elem_of_fmap. exists x.
      unfold entry_of. by rewrite Hkx.
    + split; [done|]. rewrite recency_entries, elem_of_reverse.
      rewrite <- structural_keys by done. rewrite Hk. by intros [? ?].
  - induction n as [|n IH]; [done|]. by rewrite Nat.iter_succ, IH.
Qed.

Lemma find_spec_witness :
  plain_key "b" ∧ structural example_cache ∧
  (find "b" example_cache).1 = JRef 1 ∧
  Nat.iter 5 (λ s', (find "b" s').2) example_cache = example_cache.
Proof.
  split; [reflexivity|]. split; [apply example_cache_structural|].
  pose proof (find_spec example_cache "b" 5 eq_refl example_cache_structural)
    as [H Hiter].
  change (_store example_cache !! "b") with (Some 1%nat) in H.
  cbv beta iota in H. destruct H as [Hres _]. split; [exact Hres|exact Hiter].
Defined.

(** X21 ([set], for keys that [Object.prototype] does not name).  On a key
    that is in the cache, [set] returns the value
    stored before, overwrites it, and moves the node to the head end exactly
    as [get] does.  On a key that is not in the cache it returns [undefined]
    and leaves the cache as it is.  In both cases the size and the index
    stay as they were: nothing is inserted and nothing is evicted. *)
Theorem set_spec (s : LRUCache) (k : string) (v : jsval) :
  plain_key k →
  structural s →
  match _store s !! k with
  | Some x =>
      (set k v s).1 = get_value (heap s) x ∧
      (k, (set k v s).1) ∈ entries s ∧
      nodes (set k v s).2 = filter (λ l, l ≠ x) (nodes s) ++ [x] ∧
      nodes (set k v s).2 = nodes (get k s).2 ∧
      entries (set k v s).2 = filter (λ e, e.1 ≠ k) (entries s) ++ [(k, v)]
  | None => set k v s = (JUndefined, s)
  end ∧
  _size (set k v s).2 = _size s ∧
  _store (set k v s).2 = _store s.
Proof.
  intros _ Hs. destruct (_store s !! k) as [x|] eqn:Hk.
  - destruct (set_hit s k v x Hs Hk) as (_ & ? & ? & Hn & ? & ? & _ & ?).
    destruct (get_hit s k x Hs Hk) as (_ & _ & _ & Hn' & _).
    split_and!; try done. by rewrite Hn, Hn'.
  - by rewrite set_miss.
Qed.

Lemma set_spec_witness :
  plain_key "a" ∧ structural example_cache ∧
  (set "a" JNull example_cache).1 = JNum 1 ∧
  _size (set "a" JNull example_cache).2 = 3%Z.
Proof.
  split; [reflexivity|]. split; [apply example_cache_structural|].
  pose proof (set_spec example_cache "a" JNull eq_refl example_cache_structural)
    as (H & Hsz & _).
  change (_store example_cache !! "a") with (Some 0%nat) in H.
  cbv beta iota in H. destruct H as [Hres _].
  split; [rewrite Hres; reflexivity|rewrite Hsz; reflexivity].
Defined.

(** X22 ([remove], for keys that [Object.prototype] does not name).  On a
    key that is in the cache, [remove] returns the
    value stored under it, takes the node out of the list (the other nodes
    keep their order, and the list is again a well-formed chain of the new
    length), deletes the key from the index so that [keys] no longer lists
    it, and lowers the size by one.  On a key that is not in the cache it
    returns [undefined] and leaves the cache as it is. *)
Theorem remove_spec (s : LRUCache) (k : string) :
  plain_key k →
  structural s →
  match _store s !! k with
  | Some x =>
      (remove k s).1 = get_value (heap s) x ∧
      (k, (remove k s).1) ∈ entries s ∧
      nodes (remove k s).2 = filter (λ l, l ≠ x) (nodes s) ∧
      entries (remove k s).2 = filter (λ e, e.1 ≠ k) (entries s) ∧
      _size (remove k s).2 = (_size s - 1)%Z ∧
      _store (remove k s).2 = delete k (_store s) ∧
      (k ∉ (keys (remove k s).2).1) ∧
      structural (remove k s).2 ∧
      Z.of_nat (length (nodes (remove k s).2)) = _size (remove k s).2
  | None => remove k s = (JUndefined, s)
  end.
Proof.
  intros _ Hs. destruct (_store s !! k) as [x|] eqn:Hk; [|by apply remove_miss].
  destruct (remove_hit s k x Hs Hk) as (Hs' & ? & ? & ? & ? & ? & _ & Hst).
  split_and!; try done.
  - unfold keys. simpl. rewrite Hst, elem_of_elements, dom_delete_L.
    intros [_ Hk']%elem_of_difference. by apply Hk', elem_of_singleton.
  - rewrite (st_length _ Hs'). pose proof (st_size _ Hs'). lia.
Qed.

Lemma remove_spec_witness :
  plain_key "b" ∧ structural example_cache ∧
  (remove "b" example_cache).1 = JNum 2 ∧
  _size (remove "b" example_cache).2 = 2%Z.
Proof.
  split; [reflexivity|]. split; [apply example_cache_structural|].
  pose proof (remove_spec example_cache "b" eq_refl example_cache_structural) as H.
  change (_store example_cache !! "b") with (Some 1%nat) in H.
  cbv beta iota in H. destruct H as (Hres & _ & _ & _ & Hsz & _).
  split; [rewrite Hres; reflexivity|rewrite Hsz; reflexivity].
Defined.



(** X24 ([undefined] as a stored value, for keys that [Object.prototype]
    does not name).  In a cache built with a positive limit, after [put] of
    such a key with the value [undefined] the key is in the index, in the
    recency list and counted in the size, and yet [get], [set] and [remove]
    on it return [undefined], which is also what they return on such a key
    that is not in the cache. *)
Theorem undefined_ambiguous (cap : Z) (ops : list op) (k k' : string) (v : jsval) :
  Forall plain_op ops → plain_key k → plain_key k' →
  (0 < cap)%Z →
  let s1 := (put k JUndefined (run ops (newInstance cap))).2 in
  _store s1 !! k' = None →
  (is_Some (_store s1 !! k) ∧ k ∈ recency s1 ∧
   _size s1 = Z.of_nat (length (recency s1)) ∧
   _size (remove k s1).2 = (_size s1 - 1)%Z) ∧
  ((get k s1).1 = JUndefined ∧ (set k v s1).1 = JUndefined ∧
   (remove k s1).1 = JUndefined) ∧
  ((get k' s1).1 = JUndefined ∧ (set k' v s1).1 = JUndefined ∧
   (remove k' s1).1 = JUndefined).
Proof.
  intros _ _ _ Hcap s1 Hk'.
  destruct (run_invariant cap ops Hcap) as (Hs & Hb & _).
  destruct (put_last _ k JUndefined Hs Hb) as [Hs1 Hlast]. fold s1 in Hs1, Hlast.
  apply last_Some_elem_of in Hlast.
  destruct (entries_lookup s1 k JUndefined Hs1 Hlast) as (x & Hx & Hv).
  destruct (get_hit s1 k x Hs1 Hx) as (_ & Hget & _).
  destruct (set_hit s1 k v x Hs1 Hx) as (_ & Hset & _).
  destruct (remove_hit s1 k x Hs1 Hx) as (_ & Hrem & _ & _ & _ & Hsz & _).
  split_and!; try congruence.
  - by exists x.
  - rewrite recency_entries, elem_of_reverse.
    apply list_elem_of_fmap. by exists (k, JUndefined).
  - unfold recency. rewrite length_reverse, length_fmap, (st_length _ Hs1).
    pose proof (st_size _ Hs1). lia.
  - by rewrite get_miss.
  - by rewrite set_miss.
  - by rewrite remove_miss.
Qed.

Lemma undefined_ambiguous_witness :
  Forall plain_op example_ops ∧ plain_key "u" ∧ plain_key "zzz" ∧ (0 < 3)%Z ∧
  _store (put "u" JUndefined example_cache).2 !! "zzz" = None ∧
  is_Some (_store (put "u" JUndefined example_cache).2 !! "u") ∧
  (get "u" (put "u" JUndefined example_cache).2).1 =
    (get "zzz" (put "u" JUndefined example_cache).2).1.
Proof.
  split; [repeat constructor|]. do 2 (split; [reflexivity|]).
  split; [lia|]. split; [reflexivity|].
  destruct (undefined_ambiguous 3 example_ops "u" "zzz" JNull)
    as ((Hin & _) & (Hget & _) & (Hget' & _));
    [repeat constructor|reflexivity|reflexivity|lia|reflexivity|].
  split; [exact Hin|]. unfold example_cache. by rewrite Hget, Hget'.
Defined.

(** ** The source against the list model *)

Lemma assoc_None k es : k ∉ es.*1 → assoc k es = None.
Proof.
  induction es as [|e es IH]; intros Hk; [done|]. simpl.
  rewrite fmap_cons, not_elem_of_cons in Hk. destruct Hk as [Hne Hk].
  rewrite decide_False by done. by apply IH.
Qed.

Lemma assoc_Some k v es : NoDup es.*1 → (k, v) ∈ es → assoc k es = Some v.
Proof.
  induction es as [|e es IH]; intros Hnd Hin; [by inversion Hin|].
  rewrite fmap_cons in Hnd. apply NoDup_cons in Hnd as [Hne Hnd]. simpl.
  apply elem_of_cons in Hin as [<-|Hin].
  - by rewrite decide_True.
  - rewrite decide_False; [by apply IH|].
    intros He. apply Hne. rewrite He. apply list_elem_of_fmap. by exists (k, v).
Qed.

Lemma assoc_elem_of k v es : assoc k es = Some v → (k, v) ∈ es.
Proof.
  induction es as [|[k' v'] es IH]; [done|]. simpl. case_decide as Hd.
  - intros [= <-]. subst. left.
  - intros H. right. by apply IH.
Qed.

Lemma structural_length_entries s :
  structural s → Z.of_nat (length (entries s)) = _size s.
Proof.
  intros Hs. unfold entries. rewrite length_fmap, (st_length _ Hs).
  pose proof (st_size _ Hs). lia.
Qed.

Lemma assoc_store s k :
  structural s →
  assoc k (entries s) = get_value (heap s) <$> _store s !! k.
Proof.
  intros Hs. destruct (_store s !! k) as [x|] eqn:Hk; simpl.
  - apply assoc_Some; [by apply structural_keys_NoDup|].
    apply (st_index _ Hs) in Hk as [Hx Hkx].
    rewrite entries_eq. apply list_elem_of_fmap. exists x.
    unfold entry_of. by rewrite Hkx.
  - apply assoc_None. rewrite <- structural_keys by done. rewrite Hk. by intros [? ?].
Qed.

Lemma exec_model o s :
  structural s →
  entries (exec o s) = model_exec (_cacheLimit s) o (entries s).
Proof.
  intros Hs. pose proof (structural_length_entries s Hs) as Hlen.
  destruct o as [k v| |k|k|k v|k| | | |]; simpl; try done;
    rewrite ?assoc_store by done.
  - destruct (_store s !! k) as [x|] eqn:Hk; simpl.
    + by destruct (put_hit s k v x Hs Hk) as (_ & _ & _ & -> & _).
    + rewrite Hlen.
      destruct (Z.ltb_spec (_cacheLimit s) (_size s + 1)) as [Hlt|Hge].
      * destruct (put_new_evicts s k v Hs Hk)
          as (? & ? & ? & _ & _ & _ & _ & _ & _ & _ & -> & _); [lia|done].
      * by destruct (put_new_fits s k v Hs Hk) as (_ & _ & _ & -> & _); [lia|].
  - destruct (_last s) as [t|] eqn:Ht.
    + by destruct (purge_nonempty s t Hs Ht) as (_ & _ & _ & _ & _ & -> & _).
    + rewrite purge_none by done. simpl.
      pose proof (structural_Rep _ Hs) as H.
      rewrite (rep_last _ _ H) in Ht. rewrite entries_eq.
      by destruct (nodes s).
  - destruct (_store s !! k) as [x|] eqn:Hk; simpl.
    + destruct (get_hit s k x Hs Hk) as (_ & Hv & _ & _ & -> & _). by rewrite Hv.
    + by rewrite get_miss.
  - destruct (_store s !! k) as [x|] eqn:Hk; simpl.
    + by destruct (set_hit s k v x Hs Hk) as (_ & _ & _ & _ & -> & _).
    + by rewrite set_miss.
  - destruct (_store s !! k) as [x|] eqn:Hk; simpl.
    + by destruct (remove_hit s k x Hs Hk) as (_ & _ & _ & _ & -> & _).
    + rewrite remove_miss by done. simpl. symmetry. apply filter_all.
      intros e He Hek.
      assert (is_Some (_store s !! k)) as [? ?]; [|congruence].
      apply structural_keys; [done|]. apply list_elem_of_fmap. by exists e.
Qed.

Lemma run_model ops s :
  structural s →
  structural (run ops s) ∧
  _cacheLimit (run ops s) = _cacheLimit s ∧
  entries (run ops s) = model_run (_cacheLimit s) ops (entries s).
Proof.
  unfold run, model_run. revert s.
  induction ops as [|o ops IH]; intros s Hs; [done|]. simpl.
  destruct (exec_facts o s Hs) as (Hs' & Hc & _).
  destruct (IH (exec o s) Hs') as (? & -> & ->).
  by rewrite Hc, exec_model.
Qed.

Lemma get_result_model s k :
  structural s → (get k s).1 = default JUndefined (assoc k (entries s)).
Proof.
  intros Hs. rewrite assoc_store by done.
  destruct (_store s !! k) as [x|] eqn:Hk; simpl.
  - by destruct (get_hit s k x Hs Hk) as (_ & -> & _).
  - by rewrite get_miss.
Qed.

Lemma set_result_model s k v :
  structural s → (set k v s).1 = default JUndefined (assoc k (entries s)).
Proof.
  intros Hs. rewrite assoc_store by done.
  destruct (_store s !! k) as [x|] eqn:Hk; simpl.
  - by destruct (set_hit s k v x Hs Hk) as (_ & -> & _).
  - by rewrite set_miss.
Qed.

Lemma remove_result_model s k :
  structural s → (remove k s).1 = default JUndefined (assoc k (entries s)).
Proof.
  intros Hs. rewrite assoc_store by done.
  destruct (_store s !! k) as [x|] eqn:Hk; simpl.
  - by destruct (remove_hit s k x Hs Hk) as (_ & -> & _).
  - by rewrite remove_miss.
Qed.

(** ** Further properties of the operations *)

(** X1 ([purge]).  On a cache with entries, [purge] returns the entry object
    at the tail, with its key and value intact and both of its links reset
    to [undefined]; that node leaves the list, its key leaves the index, the
    other entries keep their order and the size drops by one.  On an empty
    cache it returns [undefined] and changes nothing. *)
Theorem purge_spec (s : LRUCache) :
  structural s →
  match _last s with
  | Some t =>
      (purge s).1 = JRef t ∧
      head (nodes s) = Some t ∧
      head (entries s) =
        Some (get_key (heap (purge s).2) t, get_value (heap (purge s).2) t) ∧
      get_prev (heap (purge s).2) t = None ∧
      get_next (heap (purge s).2) t = None ∧
      nodes (purge s).2 = tail (nodes s) ∧
      entries (purge s).2 = tail (entries s) ∧
      _size (purge s).2 = (_size s - 1)%Z ∧
      _store (purge s).2 = delete (get_key (heap s) t) (_store s) ∧
      structural (purge s).2
  | None => purge s = (JUndefined, s) ∧ entries s = [] ∧ _size s = 0%Z
  end.
Proof.
  intros Hs. pose proof (structural_Rep _ Hs) as H.
  destruct (_last s) as [t|] eqn:Ht.
  - destruct (purge_nonempty s t Hs Ht) as (? & ? & Hhd & ? & ? & ? & ? & _ & ?).
    assert (nodes s = t :: tail (nodes s)) as Hn.
    { destruct (nodes s); by simplify_eq/=. }
    rewrite Hn in H.
    destruct (purge_Rep _ _ _ H) as (_ & _ & _ & _ & _ & ? & ? & _).
    split_and!; done.
  - split_and!.
    + by apply purge_none.
    + rewrite (rep_last _ _ H) in Ht. rewrite entries_eq. by destruct (nodes s).
    + rewrite (rep_last _ _ H) in Ht. rewrite (rep_size _ _ H). by destruct (nodes s).
Qed.

Lemma purge_spec_witness :
  structural example_cache ∧
  (purge example_cache).1 = JRef 0 ∧
  entries (purge example_cache).2 = [("b", JNum 2); ("c", JNum 3)].
Proof.
  split; [apply example_cache_structural|].
  pose proof (purge_spec example_cache example_cache_structural) as H.
  change (_last example_cache) with (Some 0%nat) in H. cbv beta iota in H.
  destruct H as (Hres & _ & _ & _ & _ & _ & Hent & _).
  split; [exact Hres|]. rewrite Hent. reflexivity.
Defined.


Lemma structural_no_entries s :
  structural s → entries s = [] →
  _store s = ∅ ∧ _first s = None ∧ _last s = None ∧ _size s = 0%Z.
Proof.
  intros Hs He. pose proof (structural_length_entries s Hs) as Hlen.
  rewrite He in Hlen. simpl in Hlen.
  assert (_size s = 0%Z) as Hsz by lia.
  destruct (proj1 (st_empty _ Hs) Hsz) as [? ?]. split_and!; try done.
  apply map_empty. intros k. apply eq_None_not_Some.
  rewrite structural_keys, He by done. simpl. by intros ?%elem_of_nil.
Qed.




Lemma newInstance_structural cap : structural (newInstance cap).
Proof. apply (Rep_structural _ []), Rep_newInstance. Qed.

(** X3 ([removeAll]).  After [removeAll] the cache has no entries, no keys
    and size 0, keeps its limit, and from there on it cannot be told from a
    cache freshly built with that limit: after any further calls on keys
    that [Object.prototype] does not name both hold the same entries in the
    same order, and [get] of such a key answers the same.  A second
    [removeAll] changes nothing. *)
Theorem removeAll_spec (s : LRUCache) (ops : list op) (k : string) :
  Forall plain_op ops → plain_key k →
  let s' := (removeAll s).2 in
  structural s' ∧
  entries s' = [] ∧ (keys s').1 = [] ∧ _size s' = 0%Z ∧
  _cacheLimit s' = _cacheLimit s ∧
  removeAll s' = (JUndefined, s') ∧
  entries (run ops s') = entries (run ops (newInstance (_cacheLimit s))) ∧
  (get k (run ops s')).1 = (get k (run ops (newInstance (_cacheLimit s)))).1.
Proof.
  intros _ _ s'. pose proof (removeAll_structural s) as Hs'. fold s' in Hs'.
  pose proof (newInstance_structural (_cacheLimit s)) as Hs0.
  destruct (run_model ops s' Hs') as (Hr' & _ & He').
  destruct (run_model ops _ Hs0) as (Hr0 & _ & He0).
  assert (entries (run ops s') = entries (run ops (newInstance (_cacheLimit s)))) as He.
  { by rewrite He', He0. }
  split_and!; try done.
  by rewrite !get_result_model, He.
Qed.

Lemma removeAll_spec_witness :
  Forall plain_op [Put "x" JNull] ∧ plain_key "x" ∧
  entries (removeAll example_cache).2 = [] ∧
  entries (run [Put "x" JNull] (removeAll example_cache).2) = [("x", JNull)].
Proof.
  split; [repeat constructor|]. split; [reflexivity|].
  destruct (removeAll_spec example_cache [Put "x" JNull] "x")
    as (_ & He & _ & _ & _ & _ & Hrun & _); [repeat constructor|reflexivity|].
  split; [exact He|]. rewrite Hrun. reflexivity.
Defined.

(** X4 (the list model).  Seen through its list of (key, value) pairs, a
    well-formed cache behaves as the list model does: after any sequence of
    public calls on keys that [Object.prototype] does not name the pairs are
    those the model computes from the pairs before, the cache is well formed
    again, and [get], [set] and [remove] of such a key then return the value
    the model lists under the key, or [undefined] when it lists none. *)
Theorem run_refines_model (s : LRUCache) (ops : list op) (k : string) (v : jsval) :
  Forall plain_op ops → plain_key k →
  structural s →
  let es := model_run (_cacheLimit s) ops (entries s) in
  structural (run ops s) ∧
  entries (run ops s) = es ∧
  (get k (run ops s)).1 = default JUndefined (assoc k es) ∧
  (set k v (run ops s)).1 = default JUndefined (assoc k es) ∧
  (remove k (run ops s)).1 = default JUndefined (assoc k es).
Proof.
  intros _ _ Hs es. destruct (run_model ops s Hs) as (Hr & _ & He). fold es in He.
  rewrite <- He. split_and!; try done.
  - by apply get_result_model.
  - by apply set_result_model.
  - by apply remove_result_model.
Qed.

Lemma run_refines_model_witness :
  Forall plain_op [Get "a"; Put "d" JNull; Remove "c"] ∧ plain_key "b" ∧
  structural example_cache ∧
  entries (run [Get "a"; Put "d" JNull; Remove "c"] example_cache) =
    [("a", JNum 1); ("d", JNull)] ∧
  (get "b" (run [Get "a"; Put "d" JNull; Remove "c"] example_cache)).1 = JUndefined.
Proof.
  split; [repeat constructor|]. split; [reflexivity|].
  split; [apply example_cache_structural|].
  destruct (run_refines_model example_cache [Get "a"; Put "d" JNull; Remove "c"]
              "b" JNull) as (_ & He & Hget & _);
    [repeat constructor|reflexivity|apply example_cache_structural|].
  split; [rewrite He|rewrite Hget]; reflexivity.
Defined.









(** A [get] of the key that is already at the head end reads the value and
    writes nothing. *)
Lemma get_head s k v :
  structural s → last (entries s) = Some (k, v) → get k s = (v, s).
Proof.
  intros Hs Hlast. rewrite entries_eq, fmap_last in Hlast.
  destruct (last (nodes s)) as [x|] eqn:Hx; [|done].
  simpl in Hlast. injection Hlast as Hkx Hvx.
  assert (_store s !! k = Some x) as Hk.
  { apply (st_index _ Hs). split; [by apply last_Some_elem_of|done]. }
  unfold get. rewrite (getEntry_hit _ _ _ Hk).
  unfold _moveToFront. rewrite decide_True by (by rewrite (st_first _ Hs)).
  by rewrite Hvx.
Qed.

Lemma put_last_pos s k v :
  structural s → (0 < _cacheLimit s)%Z →
  structural (put k v s).2 ∧ last (entries (put k v s).2) = Some (k, v).
Proof.
  intros Hs Hcap. destruct (_store s !! k) as [x|] eqn:Hk.
  - destruct (put_hit s k v x Hs Hk) as (? & _ & _ & -> & _).
    by rewrite last_snoc.
  - destruct (Z.lt_ge_cases (_size s) (_cacheLimit s)) as [Hlt|Hge].
    + destruct (put_new_fits s k v Hs Hk Hlt) as (? & _ & _ & -> & _).
      by rewrite last_snoc.
    + destruct (put_new_evicts s k v Hs Hk Hge)
        as (t & kt & vt & _ & _ & ? & _ & _ & _ & _ & -> & _).
      split; [done|].
      destruct (structural_nonempty s Hs) as (t' & B & Hn & _); [lia|].
      rewrite entries_eq, Hn. simpl. by rewrite last_snoc.
Qed.

(** X7 ([put] then read).  In a cache with a positive limit, right after
    [put] of a key that [Object.prototype] does not name with a value, [get], [set] and [remove] on that key each
    return that value, the key is the most recently used one, and the [get]
    leaves the cache exactly as [put] left it. *)
Theorem put_then_read (s : LRUCache) (k : string) (v v' : jsval) :
  plain_key k →
  structural s →
  (0 < _cacheLimit s)%Z →
  get k (put k v s).2 = (v, (put k v s).2) ∧
  (set k v' (put k v s).2).1 = v ∧
  (remove k (put k v s).2).1 = v ∧
  head (recency (put k v s).2) = Some k.
Proof.
  intros _ Hs Hcap. destruct (put_last_pos s k v Hs Hcap) as [Hs1 Hlast].
  pose proof (last_Some_elem_of _ _ Hlast) as Hin.
  pose proof (assoc_Some k v _ (structural_keys_NoDup _ Hs1) Hin) as Ha.
  split_and!.
  - by apply get_head.
  - by rewrite set_result_model, Ha.
  - by rewrite remove_result_model, Ha.
  - rewrite recency_entries, head_reverse, fmap_last, Hlast. done.
Qed.

Lemma put_then_read_witness :
  plain_key "d" ∧ structural example_cache ∧ (0 < _cacheLimit example_cache)%Z ∧
  (get "d" (put "d" (JStr "x") example_cache).2).1 = JStr "x".
Proof.
  split; [reflexivity|]. split; [apply example_cache_structural|].
  assert (0 < _cacheLimit example_cache)%Z as Hcap by (vm_compute; reflexivity).
  split; [exact Hcap|].
  destruct (put_then_read example_cache "d" (JStr "x") JNull eq_refl
              example_cache_structural Hcap) as (Hget & _).
  by rewrite Hget.
Defined.

(** X8 ([set] then [get], for keys that [Object.prototype] does not name).
    After [set] on a key that is in the cache, [get]
    on that key returns the value just set and leaves the cache exactly as
    [set] left it; after [set] on a key that is not in the cache, [get]
    still returns [undefined] and the cache is the one before the [set]. *)
Theorem set_then_get (s : LRUCache) (k : string) (v : jsval) :
  plain_key k →
  structural s →
  match _store s !! k with
  | Some _ => get k (set k v s).2 = (v, (set k v s).2)
  | None => get k (set k v s).2 = (JUndefined, s)
  end.
Proof.
  intros _ Hs. destruct (_store s !! k) as [x|] eqn:Hk.
  - destruct (set_hit s k v x Hs Hk) as (Hs1 & _ & _ & _ & He & _).
    apply get_head; [done|]. by rewrite He, last_snoc.
  - rewrite set_miss by done. by apply get_miss.
Qed.

Lemma set_then_get_witness :
  plain_key "b" ∧ structural example_cache ∧
  (get "b" (set "b" JNull example_cache).2).1 = JNull.
Proof.
  split; [reflexivity|]. split; [apply example_cache_structural|].
  pose proof (set_then_get example_cache "b" JNull eq_refl example_cache_structural)
    as H.
  change (_store example_cache !! "b") with (Some 1%nat) in H. cbv beta iota in H.
  by rewrite H.
Defined.

(** X9 ([get] twice, for keys that [Object.prototype] does not name).  A
    second [get] of the same key right after the first
    returns the same result and leaves the cache exactly as the first one
    left it: moving the head entry to the front writes nothing. *)
Theorem get_twice (s : LRUCache) (k : string) :
  plain_key k → structural s → get k (get k s).2 = get k s.
Proof.
  intros _ Hs. destruct (_store s !! k) as [x|] eqn:Hk.
  - destruct (get_hit s k x Hs Hk) as (Hs1 & _ & _ & _ & He & _).
    rewrite (get_head (get k s).2 k (get k s).1); [by destruct (get k s)|done|].
    by rewrite He, last_snoc.
  - rewrite (get_miss s k Hk). by apply get_miss.
Qed.

Lemma get_twice_witness :
  plain_key "a" ∧ structural example_cache ∧
  get "a" (get "a" example_cache).2 = get "a" example_cache.
Proof.
  split; [reflexivity|]. split; [apply example_cache_structural|].
  apply (get_twice example_cache "a" eq_refl example_cache_structural).
Defined.

Lemma filter_key_absent k (es : list (string * jsval)) :
  k ∉ es.*1 → filter (λ e, e.1 ≠ k) es = es.
Proof.
  intros Hk. apply filter_all. intros e He Hek. apply Hk.
  apply list_elem_of_fmap. by exists e.
Qed.

(** X10 ([put] then [remove]).  When a key that [Object.prototype] does not
    name is not in the cache and there is room for it, [put] followed by [remove] of that key returns the value
    put and restores the entries, their order, the size and the index. *)
Theorem put_then_remove (s : LRUCache) (k : string) (v : jsval) :
  plain_key k →
  structural s →
  _store s !! k = None →
  (_size s < _cacheLimit s)%Z →
  (remove k (put k v s).2).1 = v ∧
  entries (remove k (put k v s).2).2 = entries s ∧
  _size (remove k (put k v s).2).2 = _size s ∧
  _store (remove k (put k v s).2).2 = _store s.
Proof.
  intros _ Hs Hk Hfit.
  destruct (put_new_fits s k v Hs Hk Hfit) as (Hs1 & _ & _ & He1 & Hsz1 & _ & Hst1).
  assert (_store (put k v s).2 !! k = Some (length (heap s))) as Hk1.
  { by rewrite Hst1, lookup_insert_eq. }
  destruct (remove_hit _ k _ Hs1 Hk1) as (_ & _ & _ & _ & He2 & Hsz2 & _ & Hst2).
  assert (k ∉ (entries s).*1) as Hnk.
  { rewrite <- structural_keys by done. rewrite Hk. by intros [? ?]. }
  split_and!.
  - rewrite remove_result_model by done. rewrite He1.
    rewrite (assoc_Some k v); [done| |].
    + rewrite <- He1. by apply structural_keys_NoDup.
    + apply elem_of_app. right. left.
  - rewrite He2, He1, filter_app, filter_cons_False by (simpl; by intros ?).
    rewrite filter_nil, app_nil_r. by apply filter_key_absent.
  - rewrite Hsz2, Hsz1. lia.
  - rewrite Hst2, Hst1. by apply delete_insert_id.
Qed.

Lemma put_then_remove_witness :
  plain_key "z" ∧ structural single_cache ∧ _store single_cache !! "z" = None ∧
  (_size single_cache < _cacheLimit single_cache)%Z ∧
  entries (remove "z" (put "z" JNull single_cache).2).2 = [("a", JNum 1)].
Proof.
  assert (structural single_cache) as Hs.
  { apply (exec_structural (Put "a" (JNum 1)) (newInstance 2)),
      (Rep_structural _ []), Rep_newInstance. }
  assert (_size single_cache < _cacheLimit single_cache)%Z as Hfit
    by (vm_compute; reflexivity).
  split; [reflexivity|].
  split; [exact Hs|]. split; [reflexivity|]. split; [exact Hfit|].
  destruct (put_then_remove single_cache "z" JNull eq_refl Hs eq_refl Hfit)
    as (_ & He & _).
  rewrite He. reflexivity.
Defined.

(** X11 (after [remove], for keys that [Object.prototype] does not name).
    Whether or not the key was in the cache, after [remove] of a key the key
    is gone: it is not in the index nor among the
    [keys], [find] returns [undefined], and [get], [set] and a second
    [remove] return [undefined] and change nothing. *)
Theorem remove_then_absent (s : LRUCache) (k : string) (v : jsval) :
  plain_key k →
  structural s →
  let s' := (remove k s).2 in
  _store s' !! k = None ∧
  (k ∉ (keys s').1) ∧
  (find k s').1 = JUndefined ∧
  get k s' = (JUndefined, s') ∧
  set k v s' = (JUndefined, s') ∧
  remove k s' = (JUndefined, s').
Proof.
  intros _ Hs s'.
  assert (_store s' !! k = None) as Hk'.
  { unfold s'. destruct (_store s !! k) as [x|] eqn:Hk.
    - destruct (remove_hit s k x Hs Hk) as (_ & _ & _ & _ & _ & _ & _ & ->).
      apply lookup_delete_eq.
    - by rewrite remove_miss. }
  split_and!.
  - done.
  - unfold keys. simpl. rewrite elem_of_elements, elem_of_dom, Hk'. by intros [? ?].
  - unfold find. simpl. by rewrite Hk'.
  - by apply get_miss.
  - by apply set_miss.
  - by apply remove_miss.
Qed.

Lemma remove_then_absent_witness :
  plain_key "b" ∧ structural example_cache ∧
  get "b" (remove "b" example_cache).2 = (JUndefined, (remove "b" example_cache).2).
Proof.
  split; [reflexivity|]. split; [apply example_cache_structural|].
  by destruct (remove_then_absent example_cache "b" JNull eq_refl
                 example_cache_structural) as (_ & _ & _ & Hget & _).
Defined.

Lemma model_put_keeps_last cap k w k' v' (es : list (string * jsval)) :
  (2 ≤ cap)%Z → last es = Some (k, w) → assoc k' es = None →
  (k, w) ∈ model_exec cap (Put k' v') es.
Proof.
  intros Hcap Hlast Hk'. simpl. rewrite Hk'.
  pose proof (last_Some_elem_of _ _ Hlast) as Hin.
  destruct (Z.ltb_spec cap (Z.of_nat (length es) + 1)) as [Hlt|Hge].
  - destruct es as [|e [|e' es]]; [done|simpl in Hlt; lia|].
    rewrite last_cons_cons in Hlast. apply last_Some_elem_of in Hlast.
    change (tail ((e :: e' :: es) ++ [(k', v')])) with ((e' :: es) ++ [(k', v')]).
    apply elem_of_app. by left.
  - apply elem_of_app. by left.
Qed.

(** X12 (the entry just used is not the next one evicted).  In a cache with
    a limit of at least 2, take a key that is in the cache and use it with
    [get], [set] or [put]; a [put] of a new key right after that, whether
    it evicts or not, leaves the used key in the cache.  Neither key is a
    name that [Object.prototype] holds. *)
Theorem recently_used_survives (s : LRUCache) (o : op) (k k' : string) (v v' : jsval) :
  plain_key k → plain_key k' →
  structural s →
  (2 ≤ _cacheLimit s)%Z →
  is_Some (_store s !! k) →
  _store s !! k' = None →
  o = Get k ∨ o = Set_ k v ∨ o = Put k v →
  is_Some (_store (run [o; Put k' v'] s) !! k) ∧
  k ∈ recency (run [o; Put k' v'] s).
Proof.
  intros _ _ Hs Hcap [x Hk] Hk' Ho.
  destruct (run_model [o; Put k' v'] s Hs) as (Hs2 & _ & He2).
  assert (k ∈ (entries (run [o; Put k' v'] s)).*1) as Hin.
  { rewrite He2. unfold model_run. cbn [foldl].
    pose proof (assoc_store s k Hs) as Ha. rewrite Hk in Ha. simpl in Ha.
    assert (k' ∉ (entries s).*1) as Hnk'.
    { rewrite <- structural_keys by done. rewrite Hk'. by intros [? ?]. }
    assert (k ≠ k') as Hne by congruence.
    assert (∃ w, model_exec (_cacheLimit s) o (entries s) =
                   model_touch k w (entries s)) as [w Hw].
    { destruct Ho as [->|[->| ->]]; simpl; rewrite Ha; eauto. }
    rewrite Hw. apply list_elem_of_fmap. exists (k, w). split; [done|].
    apply model_put_keeps_last; [done|by apply last_snoc|].
    apply assoc_None. unfold model_touch. rewrite fmap_app, elem_of_app.
    intros [Hf|Hf].
    - apply Hnk'. apply list_elem_of_fmap in Hf as (e & -> & He).
      apply list_elem_of_filter in He as [_ He].
      apply list_elem_of_fmap. by exists e.
    - apply list_elem_of_singleton in Hf. simpl in Hf. congruence. }
  split.
  - by apply structural_keys.
  - by rewrite recency_entries, elem_of_reverse.
Qed.

Lemma recently_used_survives_witness :
  plain_key "a" ∧ plain_key "d" ∧
  structural example_cache ∧ (2 ≤ _cacheLimit example_cache)%Z ∧
  is_Some (_store (run [Get "a"; Put "d" JNull] example_cache) !! "a").
Proof.
  do 2 (split; [reflexivity|]).
  split; [apply example_cache_structural|].
  assert (2 ≤ _cacheLimit example_cache)%Z as Hcap by (vm_compute; discriminate).
  split; [exact Hcap|].
  apply (recently_used_survives example_cache (Get "a") "a" "d" JNull JNull
           eq_refl eq_refl example_cache_structural Hcap).
  - exists 0%nat. reflexivity.
  - reflexivity.
  - by left.
Defined.

Lemma run_snoc ops o s : run (ops ++ [o]) s = exec o (run ops s).
Proof. unfold run. by rewrite foldl_app. Qed.

Lemma run_nonpositive cap ops :
  (cap ≤ 0)%Z →
  structural (run ops (newInstance cap)) ∧
  _cacheLimit (run ops (newInstance cap)) = cap ∧
  _size (run ops (newInstance cap)) = 0%Z.
Proof.
  intros Hcap. induction ops as [|o ops IH] using rev_ind.
  - split_and!; try done. apply (Rep_structural _ []), Rep_newInstance.
  - rewrite run_snoc. destruct IH as (Hs & Hc & Hsz).
    destruct (exec_facts o _ Hs) as (Hs' & Hc' & Hsz').
    pose proof (st_size _ Hs'). split_and!; [done|congruence|lia].
Qed.

(** X13 (a limit of zero or less).  A cache built with a limit of 0 or
    below never holds an entry: after any sequence of public calls on keys
    that [Object.prototype] does not name it is empty, and every [put] of
    such a key creates an entry, evicts that same entry at once
    and returns it, carrying the key and value just given. *)
Theorem nonpositive_limit (cap : Z) (ops : list op) (k : string) (v : jsval) :
  Forall plain_op ops → plain_key k →
  (cap ≤ 0)%Z →
  let s := run ops (newInstance cap) in
  entries s = [] ∧ _size s = 0%Z ∧
  (put k v s).1 = JRef (length (heap s)) ∧
  get_key (heap (put k v s).2) (length (heap s)) = k ∧
  get_value (heap (put k v s).2) (length (heap s)) = v ∧
  entries (put k v s).2 = [] ∧
  (get k (put k v s).2).1 = JUndefined.
Proof.
  intros _ _ Hcap s. destruct (run_nonpositive cap ops Hcap) as (Hs & Hc & Hsz).
  fold s in Hs, Hc, Hsz.
  assert (entries s = []) as He.
  { pose proof (structural_length_entries s Hs) as Hlen.
    destruct (entries s); [done|simpl in Hlen; lia]. }
  destruct (structural_no_entries s Hs He) as (Hst & _).
  assert (_store s !! k = None) as Hk by (by rewrite Hst, lookup_empty).
  destruct (put_new_evicts s k v Hs Hk)
    as (t & kt & vt & Ht & Hkt & Hs1 & Hres & Hkey & Hval & _ & He1 & _); [lia|].
  assert (nodes s = []) as Hn.
  { rewrite entries_eq in He. by destruct (nodes s). }
  rewrite Hn in Ht. rewrite He in Hkt, He1. simpl in Ht, Hkt, He1. simplify_eq.
  split_and!; try done.
  rewrite get_result_model, He1 by done. done.
Qed.

Lemma nonpositive_limit_witness :
  Forall plain_op [Put "b" JNull] ∧ plain_key "a" ∧ (0 ≤ 0)%Z ∧
  (put "a" (JNum 1) (run [Put "b" JNull] (newInstance 0))).1 = JRef 1 ∧
  entries (put "a" (JNum 1) (run [Put "b" JNull] (newInstance 0))).2 = [].
Proof.
  split; [repeat constructor|]. split; [reflexivity|]. split; [lia|].
  destruct (nonpositive_limit 0 [Put "b" JNull] "a" (JNum 1))
    as (_ & _ & Hres & _ & _ & He & _); [repeat constructor|reflexivity|lia|].
  split; [rewrite Hres; reflexivity|exact He].
Defined.

Lemma model_run_puts cap (kvs es : list (string * jsval)) :
  (0 < cap)%Z →
  NoDup (es ++ kvs).*1 →
  (Z.of_nat (length es) ≤ cap)%Z →
  model_run cap ((λ kv, Put kv.1 kv.2) <$> kvs) es =
    drop (length (es ++ kvs) - Z.to_nat cap) (es ++ kvs).
Proof.
  intros Hcap. revert es. induction kvs as [|[k v] kvs IH]; intros es Hnd Hlen.
  - rewrite app_nil_r. simpl.
    replace (length es - Z.to_nat cap)%nat with 0%nat by lia. done.
  - rewrite fmap_cons. unfold model_run. cbn [foldl fst snd].
    assert (assoc k es = None) as Hk.
    { apply assoc_None. rewrite fmap_app, fmap_cons in Hnd.
      apply NoDup_app in Hnd as (_ & Hd & _). intros Hin. apply (Hd k Hin). left. }
    cbn [model_exec]. rewrite Hk.
    destruct (Z.ltb_spec cap (Z.of_nat (length es) + 1)) as [Hlt|Hge].
    + assert (length es = Z.to_nat cap) as Hfull by lia.
      destruct es as [|e es]; [simpl in Hfull; lia|].
      change (tail ((e :: es) ++ [(k, v)])) with (es ++ [(k, v)]).
      fold (model_run cap ((λ kv, Put kv.1 kv.2) <$> kvs) (es ++ [(k, v)])).
      rewrite length_cons in Hfull.
      rewrite IH.
      * rewrite <- !app_assoc. cbn [app]. rewrite length_cons, !length_app, length_cons.
        replace (S (length es + S (length kvs)) - Z.to_nat cap)%nat
          with (S (length es + S (length kvs) - Z.to_nat cap))%nat by lia.
        done.
      * rewrite <- app_assoc. simpl. simpl in Hnd.
        by apply NoDup_cons in Hnd as [_ ?].
      * rewrite length_app. simpl. lia.
    + fold (model_run cap ((λ kv, Put kv.1 kv.2) <$> kvs) (es ++ [(k, v)])).
      rewrite IH.
      * by rewrite <- !app_assoc.
      * by rewrite <- app_assoc.
      * rewrite length_app. simpl. lia.
Qed.

(** X14 (a run of [put]s with distinct keys).  Putting pairs with pairwise
    distinct keys, none of them a name that [Object.prototype] holds, one
    after the other, into a fresh cache with a positive
    limit leaves exactly the pairs put last, as many as the limit allows, in
    the order they were put. *)
Theorem distinct_puts_keep_last (cap : Z) (kvs : list (string * jsval)) :
  Forall plain_key kvs.*1 →
  (0 < cap)%Z →
  NoDup kvs.*1 →
  entries (run ((λ kv, Put kv.1 kv.2) <$> kvs) (newInstance cap)) =
    drop (length kvs - Z.to_nat cap) kvs.
Proof.
  intros _ Hcap Hnd.
  destruct (run_model ((λ kv, Put kv.1 kv.2) <$> kvs) (newInstance cap))
    as (_ & _ & ->).
  - apply (Rep_structural _ []), Rep_newInstance.
  - change (entries (newInstance cap)) with (@nil (string * jsval)).
    change (_cacheLimit (newInstance cap)) with cap.
    rewrite model_run_puts; [done|done|done|simpl; lia].
Qed.

Lemma distinct_puts_keep_last_witness :
  Forall plain_key ["a"; "b"; "c"]%string ∧
  (0 < 2)%Z ∧ NoDup ["a"; "b"; "c"]%string ∧
  entries (run [Put "a" JNull; Put "b" (JNum 2); Put "c" (JNum 3)] (newInstance 2)) =
    [("b", JNum 2); ("c", JNum 3)].
Proof.
  assert (Forall plain_key ["a"; "b"; "c"]%string) as Hpl
    by (repeat constructor).
  split; [exact Hpl|]. split; [lia|].
  assert (NoDup ["a"; "b"; "c"]%string) as Hnd.
  { apply (bool_decide_unpack _). vm_compute. exact I. }
  split; [exact Hnd|].
  apply (distinct_puts_keep_last 2 [("a", JNull); ("b", JNum 2); ("c", JNum 3)]
           Hpl ltac:(lia) Hnd).
Defined.

(** The heap that [remove] leaves: only the two neighbours of the removed
    object are written to. *)
Lemma remove_heap s A x B k :
  Rep s (A ++ x :: B) →
  _store s !! k = Some x →
  heap (remove k s).2 =
    match head B with Some b => set_prev b (last A) | None => id end
      (match last A with Some a => set_next a (head B) | None => id end (heap s)).
Proof.
  intros H Hk.
  destruct (Rep_split_facts s A x B H)
    as (Hxa & Hpx & Hnx & HxA & HxB & HAB & HndA & HndB & Hlast & Hfirst).
  pose proof (Rep_lookup_key _ _ _ _ H Hk) as Hkx.
  unfold remove. rewrite Hk, Hkx.
  destruct s as [h0 sz cap fst lst st];
    cbv [upd_heap with_last with_first with_size upd_store]; simpl in *.
  rewrite Hpx, Hnx.
  destruct B as [|b B]; simpl.
  - destruct (last A) as [a|] eqn:Ea; simpl; done.
  - destruct (last A) as [a|] eqn:Ea; simpl; [|done].
    assert (x ≠ a) by (intros ->; apply HxA; by apply last_Some_elem_of).
    heap_simpl. rewrite decide_False by done. rewrite Hnx, Hpx. simpl.
    by heap_simpl.
Qed.

(** X15 ([remove] leaves the removed object linked).  [remove] takes the
    entry out of the list but, unlike [purge], does not reset the links of
    the removed object: its [prev] and [next] fields read as before the
    call, so they still refer to its former neighbours, which remain nodes
    of the list. *)
Theorem remove_keeps_links (s : LRUCache) (k : string) (x : nat) :
  structural s →
  _store s !! k = Some x →
  (x ∉ nodes (remove k s).2) ∧
  get_prev (heap (remove k s).2) x = get_prev (heap s) x ∧
  get_next (heap (remove k s).2) x = get_next (heap s) x ∧
  ∀ m, get_prev (heap s) x = Some m ∨ get_next (heap s) x = Some m →
       m ∈ nodes (remove k s).2.
Proof.
  intros Hs Hk. destruct (structural_split _ _ _ Hs Hk) as (A & B & Hn & H).
  destruct (Rep_split_facts s A x B H)
    as (Hxa & Hpx & Hnx & HxA & HxB & HAB & HndA & HndB & _ & _).
  destruct (remove_Rep _ _ _ _ _ H Hk) as (_ & H' & _).
  rewrite (Rep_nodes _ _ H'), (remove_heap s A x B k H Hk).
  split_and!.
  - rewrite elem_of_app. tauto.
  - destruct (head B) as [b|] eqn:Eb, (last A) as [a|]; simpl; heap_simpl; try done.
    all: rewrite decide_False; [done|]; intros ->; apply HxB;
      by apply head_Some_elem_of.
  - destruct (head B) as [b|], (last A) as [a|] eqn:Ea; simpl; heap_simpl; try done.
    all: rewrite decide_False; [done|]; intros ->; apply HxA;
      by apply last_Some_elem_of.
  - intros m [Hm|Hm]; apply elem_of_app.
    + left. rewrite Hpx in Hm. by apply last_Some_elem_of.
    + right. rewrite Hnx in Hm. by apply head_Some_elem_of.
Qed.

Lemma remove_keeps_links_witness :
  structural example_cache ∧ _store example_cache !! "b" = Some 1%nat ∧
  get_prev (heap (remove "b" example_cache).2) 1 = Some 0%nat ∧
  get_next (heap (remove "b" example_cache).2) 1 = Some 2%nat.
Proof.
  split; [apply example_cache_structural|]. split; [reflexivity|].
  destruct (remove_keeps_links example_cache "b" 1 example_cache_structural eq_refl)
    as (_ & Hp & Hn & _).
  split; [rewrite Hp|rewrite Hn]; reflexivity.
Defined.

(** X16 (entries are moved, never re-created).  Across any single public
    call on a key that [Object.prototype] does not name, a key that is in
    the cache either leaves the index or stays bound
    to the very same entry object: [find] on it returns the same reference
    as before, whatever reordering or eviction the call performed. *)
Theorem entry_identity_stable (s : LRUCache) (o : op) (k : string) (x : nat) :
  plain_op o →
  structural s →
  _store s !! k = Some x →
  _store (exec o s) !! k = None ∨
  (_store (exec o s) !! k = Some x ∧ (find k (exec o s)).1 = (find k s).1).
Proof.
  intros _ Hs Hk.
  assert (_store (exec o s) !! k = None ∨ _store (exec o s) !! k = Some x) as [Hn|Hx].
  { assert (∀ k', delete k' (_store s) !! k = None ∨
                    delete k' (_store s) !! k = Some x) as Hdel.
    { intros k'. rewrite lookup_delete. case_decide; [by left|by right]. }
    destruct o as [k' v| |k'|k'|k' v|k'| | | |]; simpl; try by right.
    - destruct (_store s !! k') as [x'|] eqn:Hk'.
      + destruct (put_hit s k' v x' Hs Hk') as (_ & _ & _ & _ & _ & _ & ->). by right.
      + assert (k' ≠ k) as Hne by congruence.
        destruct (Z.lt_ge_cases (_size s) (_cacheLimit s)) as [Hlt|Hge].
        * destruct (put_new_fits s k' v Hs Hk' Hlt) as (_ & _ & _ & _ & _ & _ & ->).
          right. by rewrite lookup_insert_ne.
        * destruct (put_new_evicts s k' v Hs Hk' Hge)
            as (t & kt & vt & _ & _ & _ & _ & _ & _ & _ & _ & _ & _ & ->).
          rewrite lookup_delete. case_decide; [by left|].
          right. by rewrite lookup_insert_ne.
    - destruct (_last s) as [t|] eqn:Ht.
      + destruct (purge_nonempty s t Hs Ht) as (_ & _ & _ & _ & _ & _ & _ & _ & ->).
        apply Hdel.
      + rewrite purge_none by done. by right.
    - destruct (_store s !! k') as [x'|] eqn:Hk'.
      + destruct (get_hit s k' x' Hs Hk') as (_ & _ & _ & _ & _ & _ & _ & ->). by right.
      + rewrite get_miss by done. by right.
    - destruct (_store s !! k') as [x'|] eqn:Hk'.
      + destruct (set_hit s k' v x' Hs Hk') as (_ & _ & _ & _ & _ & _ & _ & ->). by right.
      + rewrite set_miss by done. by right.
    - destruct (_store s !! k') as [x'|] eqn:Hk'.
      + destruct (remove_hit s k' x' Hs Hk') as (_ & _ & _ & _ & _ & _ & _ & ->).
        apply Hdel.
      + rewrite remove_miss by done. by right.
    - by left. }
  - by left.
  - right. split; [done|]. unfold find. simpl. by rewrite Hx, Hk.
Qed.

Lemma entry_identity_stable_witness :
  plain_op (Get "a") ∧ structural example_cache ∧ _store example_cache !! "b" = Some 1%nat ∧
  (find "b" (exec (Get "a") example_cache)).1 = JRef 1.
Proof.
  split; [reflexivity|].
  split; [apply example_cache_structural|]. split; [reflexivity|].
  destruct (entry_identity_stable example_cache (Get "a") "b" 1 eq_refl
              example_cache_structural eq_refl) as [Hn|[_ Hf]].
  - vm_compute in Hn. discriminate.
  - rewrite Hf. reflexivity.
Defined.

(** The keys the list model holds are keys it held before or the key of the
    call. *)
Lemma model_touch_plain k v (es : list (string * jsval)) :
  plain_key k → Forall plain_key es.*1 → Forall plain_key (model_touch k v es).*1.
Proof.
  intros Hk Hes. unfold model_touch. rewrite fmap_app. apply Forall_app. split.
  - rewrite Forall_fmap in Hes |- *.
    rewrite Forall_forall in Hes. apply Forall_forall.
    intros e [_ He]%list_elem_of_filter. by apply Hes.
  - by repeat constructor.
Qed.

Lemma Forall_tail {A} (P : A → Prop) (l : list A) : Forall P l → Forall P (tail l).
Proof. intros [|? ? ? ?]; [constructor|done]. Qed.

Lemma model_exec_plain cap o (es : list (string * jsval)) :
  plain_op o → Forall plain_key es.*1 → Forall plain_key (model_exec cap o es).*1.
Proof.
  intros Ho Hes.
  assert (∀ k v, plain_key k → Forall plain_key (es ++ [(k, v)]).*1) as Happ.
  { intros k v Hk. rewrite fmap_app. apply Forall_app. split; [done|].
    by repeat constructor. }
  assert (∀ l : list (string * jsval), (tail l).*1 = tail l.*1) as Htl
    by (by intros [|? ?]).
  destruct o as [k v| |k|k|k v|k| | | |]; simpl; try done.
  - destruct (assoc k es); [by apply model_touch_plain|].
    destruct (cap <? _)%Z; [|by apply Happ].
    rewrite Htl. apply Forall_tail. by apply Happ.
  - rewrite Htl. by apply Forall_tail.
  - destruct (assoc k es); [by apply model_touch_plain|done].
  - destruct (assoc k es); [by apply model_touch_plain|done].
  - rewrite Forall_fmap in Hes |- *.
    rewrite Forall_forall in Hes. apply Forall_forall.
    intros e [_ He]%list_elem_of_filter. by apply Hes.
Qed.

(** Calls on keys that [Object.prototype] does not name leave only such keys
    in the cache. *)
Lemma run_plain_keys ops s :
  structural s → Forall plain_op ops → Forall plain_key (entries s).*1 →
  Forall plain_key (entries (run ops s)).*1.
Proof.
  unfold run. revert s. induction ops as [|o ops IH]; intros s Hs Hops Hes; [done|].
  apply Forall_cons in Hops as [Ho Hops]. simpl.
  destruct (exec_facts o s Hs) as (Hs' & _ & _).
  apply IH; [done|done|]. rewrite exec_model by done. by apply model_exec_plain.
Qed.

(** X23 (round trip, for keys that [Object.prototype] does not name).  For a
    cache built with a positive limit, in any state it can reach by calls on
    such keys: the keys it holds are such keys; export it with [toJSON],
    replay [put] over the exported records in their order into a fresh
    cache of the same limit; the rebuilt cache has the same keys in the
    same recency order (and the same values). *)
Theorem roundtrip (cap : Z) (ops : list op) (fuel : nat) :
  Forall plain_op ops →
  (0 < cap)%Z →
  let s := run ops (newInstance cap) in
  (Z.to_nat (_size s) ≤ fuel)%nat →
  Forall plain_key (recency s) ∧
  ∃ snapshot,
    (toJSON fuel s).1 = Some snapshot ∧
    recency (rebuild cap snapshot) = recency s ∧
    dom (_store (rebuild cap snapshot)) = dom (_store s) ∧
    entries (rebuild cap snapshot) = entries s.
Proof.
  intros Hops Hcap s Hfuel.
  destruct (run_invariant cap ops Hcap) as (Hs & [_ Hb] & Hc). fold s in Hs, Hb, Hc.
  split.
  { rewrite recency_entries. apply Forall_reverse.
    apply run_plain_keys; [|done|constructor].
    apply (Rep_structural _ []), Rep_newInstance. }
  exists (json_of <$> entries s). rewrite toJSON_structural by done.
  split; [done|]. unfold rebuild.
  destruct (rebuild_from_new (newInstance cap) (entries s)) as (Hs' & He & _).
  - apply (Rep_structural _ []), Rep_newInstance.
  - by apply structural_keys_NoDup.
  - intros k _. apply lookup_empty.
  - simpl. unfold entries. rewrite length_fmap, (st_length _ Hs). lia.
  - simpl in He. split_and!; [|apply set_eq; intros k|done].
    + by rewrite !recency_entries, He.
    + by rewrite !elem_of_dom, !structural_keys, He.
Qed.

Lemma roundtrip_witness :
  Forall plain_op example_ops ∧
  (0 < 3)%Z ∧ (Z.to_nat (_size example_cache) ≤ 3)%nat ∧
  ∃ snapshot,
    (toJSON 3 example_cache).1 = Some snapshot ∧
    recency (rebuild 3 snapshot) = ["c"; "b"; "a"]%string.
Proof.
  split; [apply example_ops_plain|]. split; [lia|].
  assert (Z.to_nat (_size example_cache) ≤ 3)%nat as Hfuel by (vm_compute; lia).
  split; [exact Hfuel|].
  destruct (roundtrip 3 example_ops 3) as (_ & snapshot & Hsnap & Hrec & _);
    [apply example_ops_plain|lia|exact Hfuel|].
  exists snapshot. split; [exact Hsnap|].
  rewrite Hrec. reflexivity.
Defined.
